(** * openaiproxy: the caching, rate-limited proxy pipeline

  Shallow embedding of the Node.js proxy of the repository:
  - [RateLimiter]  from  nodeproxy/src/rateLimiter.js
  - [TTLCache]     from  openai-proxy/src/cache.js
  - [Utils]        from  the utils module imported by server.js
  - [Server]       from  openai-proxy/src/server.js (the /v1/ pipeline)

  Conventions.  [Date.now()] is an input of every operation that reads the
  clock (an integer number of milliseconds, [Z]).  A JavaScript [Number]
  that holds a token count is an exact rational ([Q]); [Math.floor] is
  [Qfloor].  A JavaScript [Map] with string keys is a [gmap string _]. *)

From Stdlib Require Import ZArith QArith Qround Qminmax Lqa Lia Ascii.
From stdpp Require Import gmap strings list fin_maps pretty.

Local Open Scope Z_scope.
#[local] Set Warnings "-clear-no-such-hyp,-register-all".

(* ===================================================================== *)
(** * rateLimiter.js                                                      *)
(* ===================================================================== *)

Module RateLimiter.

(** [{ tokens, last }] *)
Record bucket := Bucket { tokens : Q; last : Z }.

(** [this.max], [this.refill], [this.buckets], [this.stats.limited] *)
Record t := Limiter {
  max : Q;
  refill : Q;
  buckets : gmap string bucket;
  limited : nat
}.

(** [{ ok, remaining }] *)
Record result := Result { ok : bool; remaining : Z }.

(** [constructor({ maxTokens, refillPerSec })] *)
Definition new (maxTokens refillPerSec : Q) : t :=
  {| max := maxTokens; refill := refillPerSec; buckets := ∅; limited := 0 |}.

(** [_refill(bucket, now)] *)
Definition _refill (rl : t) (b : bucket) (now : Z) : bucket :=
  let elapsed := (inject_Z (now - last b) / 1000)%Q in
  let add := (elapsed * refill rl)%Q in
  {| tokens := Qmin (max rl) (tokens b + add); last := now |}.

(** [tryRemoveToken(id, n)], with [now] the value of [Date.now()].
    The bucket object is shared with the map, so every later assignment
    to its fields is visible through [this.buckets]: the map ends up
    holding the bucket in its final state. *)
Definition tryRemoveToken (rl : t) (now : Z) (id : string) (n : Q)
  : t * result :=
  let bucket :=
    match buckets rl !! id with
    | Some b => b
    | None => {| tokens := max rl; last := now |}
    end in
  let bucket := _refill rl bucket now in
  if Qle_bool n (tokens bucket) then
    let bucket := {| tokens := (tokens bucket - n)%Q; last := last bucket |} in
    ({| max := max rl; refill := refill rl;
        buckets := <[id := bucket]> (buckets rl);
        limited := limited rl |},
     {| ok := true; remaining := Qfloor (tokens bucket) |})
  else
    ({| max := max rl; refill := refill rl;
        buckets := <[id := bucket]> (buckets rl);
        limited := S (limited rl) |},
     {| ok := false; remaining := Qfloor (tokens bucket) |}).

(** [snapshot()] *)
Definition snapshot (rl : t) : nat * nat * (Q * Q) :=
  (size (buckets rl), limited rl, (max rl, refill rl)).

(** The refill rule in the words of the specification:
    [tokens = min(max, tokens + elapsedSeconds * refillRate)]. *)
Definition spec_refilled (maxT rate tok elapsedSeconds : Q) : Q :=
  Qmin maxT (tok + elapsedSeconds * rate).

Definition elapsedSeconds (now lastT : Z) : Q :=
  (inject_Z (now - lastT) / 1000)%Q.

(** The bucket the call works on: the stored one, or a full one created
    on first sight of the client. *)
Definition bucket_of (rl : t) (now : Z) (id : string) : bucket :=
  default {| tokens := max rl; last := now |} (buckets rl !! id).


(** [k] calls in a row for one client at one clock reading. *)
Fixpoint burst (k : nat) (rl : t) (now : Z) (id : string) : t * list result :=
  match k with
  | O => (rl, [])
  | S k' =>
      let '(rl1, r) := tryRemoveToken rl now id 1 in
      let '(rl2, rs) := burst k' rl1 now id in
      (rl2, r :: rs)
  end.


End RateLimiter.

(* ===================================================================== *)
(** * cache.js                                                            *)
(* ===================================================================== *)

Module TTLCache.

(** The stored value [{ status, headers, body }]. *)
Record value := Value {
  status : Z;
  headers : list (string * string);
  body : string
}.

(** A node [{ k, value, expiresAt, prev, next }].  The cache holds one
    node per key and never changes [node.k], so a reference to a node is
    modelled by that key: [prev] and [next] hold the key of the
    neighbouring node ([None] for [null]), and [this.map] holds the nodes
    themselves.  Assigning a field of a node updates it in the map. *)
Record node := Node {
  nvalue : value;
  expiresAt : Z;
  prev : option string;
  next : option string
}.

(** [this.stats] *)
Record stats := Stats {
  hits : nat;
  misses : nat;
  stores : nat;
  evictions : nat
}.

Record t := Cache {
  ttlMs : Z;
  maxEntries : Z;
  map : gmap string node;
  head : option string;   (* MRU *)
  tail : option string;   (* LRU *)
  st : stats
}.

(** [constructor({ ttlMs, maxEntries })] *)
Definition new (ttl maxE : Z) : t :=
  {| ttlMs := ttl; maxEntries := maxE; map := ∅;
     head := None; tail := None; st := Stats 0 0 0 0 |}.

(** ** Field assignments *)

Definition set_map (m : gmap string node) (c : t) : t :=
  {| ttlMs := ttlMs c; maxEntries := maxEntries c; map := m;
     head := head c; tail := tail c; st := st c |}.

Definition set_head (h : option string) (c : t) : t :=
  {| ttlMs := ttlMs c; maxEntries := maxEntries c; map := map c;
     head := h; tail := tail c; st := st c |}.

Definition set_tail (x : option string) (c : t) : t :=
  {| ttlMs := ttlMs c; maxEntries := maxEntries c; map := map c;
     head := head c; tail := x; st := st c |}.

Definition set_st (s : stats) (c : t) : t :=
  {| ttlMs := ttlMs c; maxEntries := maxEntries c; map := map c;
     head := head c; tail := tail c; st := s |}.

Definition with_prev (v : option string) (n : node) : node :=
  {| nvalue := nvalue n; expiresAt := expiresAt n; prev := v; next := next n |}.

Definition with_next (v : option string) (n : node) : node :=
  {| nvalue := nvalue n; expiresAt := expiresAt n; prev := prev n; next := v |}.

(** [r.prev = v] and [r.next = v] for the node referenced by [r]. *)
Definition set_prev (r : string) (v : option string) (c : t) : t :=
  set_map (alter (with_prev v) r (map c)) c.

Definition set_next (r : string) (v : option string) (c : t) : t :=
  set_map (alter (with_next v) r (map c)) c.

(** [r.prev] and [r.next]. *)
Definition get_prev (c : t) (r : string) : option string :=
  match map c !! r with Some n => prev n | None => None end.

Definition get_next (c : t) (r : string) : option string :=
  match map c !! r with Some n => next n | None => None end.

Definition incr_hits (c : t) : t :=
  set_st (Stats (S (hits (st c))) (misses (st c)) (stores (st c)) (evictions (st c))) c.
Definition incr_misses (c : t) : t :=
  set_st (Stats (hits (st c)) (S (misses (st c))) (stores (st c)) (evictions (st c))) c.
Definition incr_stores (c : t) : t :=
  set_st (Stats (hits (st c)) (misses (st c)) (S (stores (st c))) (evictions (st c))) c.
Definition incr_evictions (c : t) : t :=
  set_st (Stats (hits (st c)) (misses (st c)) (stores (st c)) (S (evictions (st c)))) c.

(** ** The recency list *)

(** [_attach(node)] *)
Definition _attach (r : string) (c : t) : t :=
  let c := set_prev r None c in
  let c := set_next r (head c) c in
  let c := match head c with
           | Some h => set_prev h (Some r) c
           | None => c
           end in
  let c := set_head (Some r) c in
  match tail c with
  | None => set_tail (Some r) c
  | Some _ => c
  end.

(** [_detach(node)] *)
Definition _detach (r : string) (c : t) : t :=
  let c := match get_prev c r with
           | Some p => set_next p (get_next c r) c
           | None => set_head (get_next c r) c
           end in
  let c := match get_next c r with
           | Some q => set_prev q (get_prev c r) c
           | None => set_tail (get_prev c r) c
           end in
  set_prev r None (set_next r None c).

(** [_moveToFront(node)] *)
Definition _moveToFront (r : string) (c : t) : t :=
  if decide (head c = Some r) then c
  else _attach r (_detach r c).

(** One round of the loop of [_evictIfNeeded]. *)
Definition evict_tail (r : string) (c : t) : t :=
  let c := _detach r c in
  let c := set_map (delete r (map c)) c in
  incr_evictions c.

(** [_evictIfNeeded()]: the [while] loop, unrolled at most [fuel] times. *)
Fixpoint evict_loop (fuel : nat) (c : t) : t :=
  match fuel with
  | O => c
  | S fuel' =>
      if decide (maxEntries c < Z.of_nat (size (map c))) then
        match tail c with
        | Some r => evict_loop fuel' (evict_tail r c)
        | None => c
        end
      else c
  end.

(** The loop condition [this.map.size > this.maxEntries && this.tail]. *)
Definition evict_cond (c : t) : bool :=
  bool_decide (maxEntries c < Z.of_nat (size (map c))) && bool_decide (is_Some (tail c)).

Definition _evictIfNeeded (c : t) : t := evict_loop (size (map c)) c.

(** [_isExpired(node)] at [Date.now() = now] *)
Definition _isExpired (now : Z) (n : node) : bool :=
  bool_decide (expiresAt n <= now).

(** ** Operations *)

(** [get(k)] at [Date.now() = now]; [None] is [null]. *)
Definition get (c : t) (now : Z) (k : string) : t * option value :=
  match map c !! k with
  | None => (incr_misses c, None)
  | Some n =>
      if _isExpired now n then
        let c := _detach k c in
        let c := set_map (delete k (map c)) c in
        (incr_misses c, None)
      else
        let c := _moveToFront k c in
        (incr_hits c, Some (nvalue n))
  end.

(** [set(k, value, ttlOverrideMs)] at [Date.now() = now]; the override is
    [Some] when [typeof ttlOverrideMs === 'number']. *)
Definition set (c : t) (now : Z) (k : string) (v : value)
    (ttlOverrideMs : option Z) : t :=
  let ttl := match ttlOverrideMs with
             | Some x => x
             | None => ttlMs c
             end in
  let c :=
    match map c !! k with
    | Some _ =>
        let c := set_map
                   (alter (λ n, {| nvalue := v; expiresAt := now + ttl;
                                   prev := prev n; next := next n |})
                      k (map c)) c in
        _moveToFront k c
    | None =>
        let c := set_map
                   (<[k := {| nvalue := v; expiresAt := now + ttl;
                              prev := None; next := None |}]> (map c)) c in
        let c := _attach k c in
        _evictIfNeeded c
    end in
  incr_stores c.

(** [del(k)] *)
Definition del (c : t) (k : string) : t * bool :=
  match map c !! k with
  | None => (c, false)
  | Some _ =>
      let c := _detach k c in
      (set_map (delete k (map c)) c, true)
  end.

(** [clear()] *)
Definition clear (c : t) : t :=
  set_tail None (set_head None (set_map ∅ c)).

(** [snapshot()] *)
Record snap := Snap {
  snap_size : nat; snap_ttlMs : Z; snap_maxEntries : Z; snap_stats : stats
}.

Definition snapshot (c : t) : snap :=
  {| snap_size := size (map c); snap_ttlMs := ttlMs c;
     snap_maxEntries := maxEntries c; snap_stats := st c |}.

End TTLCache.

(** ** Views of a cache state *)

Module LRU.

(** The recency list read off the pointers: follow [next] from
    [this.head], at most [fuel] nodes. *)
Fixpoint walk (m : gmap string TTLCache.node) (fuel : nat)
    (r : option string) : list string :=
  match fuel, r with
  | S fuel', Some k =>
      k :: walk m fuel'
             (match m !! k with Some n => TTLCache.next n | None => None end)
  | _, _ => []
  end.

(** Keys from most to least recently used. *)
Definition order (c : TTLCache.t) : list string :=
  walk (TTLCache.map c) (size (TTLCache.map c)) (TTLCache.head c).

(** What is stored under each key: the value and its expiry. *)
Definition entries (c : TTLCache.t) : gmap string (TTLCache.value * Z) :=
  (λ n, (TTLCache.nvalue n, TTLCache.expiresAt n)) <$> TTLCache.map c.

(** The logically present entries at time [now]: stored and not
    expired. *)
Definition live (c : TTLCache.t) (now : Z) : gmap string TTLCache.value :=
  fst <$> filter (λ kv, now < snd (snd kv)) (entries c).

(** [l] is the recency chain of [c]: it has no duplicates, [head] and
    [tail] are its ends, and the node of each key of [l] is stored and
    points to its neighbours in [l]. *)
Definition chained (c : TTLCache.t) (l : list string) : Prop :=
  NoDup l ∧
  TTLCache.head c = list.head l ∧
  TTLCache.tail c = list.last l ∧
  ∀ l1 k l2, l = l1 ++ k :: l2 →
    ∃ n, TTLCache.map c !! k = Some n ∧
         TTLCache.prev n = list.last l1 ∧ TTLCache.next n = list.head l2.

(** The map and the list agree: [l] is the recency chain and the map
    holds no other key. *)
Definition linked (c : TTLCache.t) (l : list string) : Prop :=
  chained c l ∧ ∀ k, is_Some (TTLCache.map c !! k) → k ∈ l.

(** Moving [k] to the front of a recency list, and dropping it. *)
Definition unlink (k : string) (l : list string) : list string :=
  filter (λ x, x ≠ k) l.

Definition touch (k : string) (l : list string) : list string :=
  k :: unlink k l.

(** The structural invariant of the cache: the map and the recency list
    agree, and the store is within its capacity. *)
Definition wf (c : TTLCache.t) : Prop :=
  ∃ l, linked c l ∧ (length l ≤ Z.to_nat (TTLCache.maxEntries c))%nat.

(** ** Auxiliary descriptions of what the operations do *)

(** A neighbour [x] of a detached node [nk], relinked around it. *)
Definition relink (nk : TTLCache.node) (x : string) (n : TTLCache.node) : TTLCache.node :=
  {| TTLCache.nvalue := TTLCache.nvalue n; TTLCache.expiresAt := TTLCache.expiresAt n;
     TTLCache.prev := if decide (TTLCache.next nk = Some x) then TTLCache.prev nk else TTLCache.prev n;
     TTLCache.next := if decide (TTLCache.prev nk = Some x) then TTLCache.next nk else TTLCache.next n |}.

(** [_detach(node)] followed by [this.map.delete(node.k)]. *)
Definition remove (k : string) (c : TTLCache.t) : TTLCache.t :=
  TTLCache.set_map (delete k (TTLCache.map (TTLCache._detach k c))) (TTLCache._detach k c).

(** A node with a new value and expiry, and its old links. *)
Definition with_payload (v : TTLCache.value) (e : Z) (n : TTLCache.node) : TTLCache.node :=
  {| TTLCache.nvalue := v; TTLCache.expiresAt := e; TTLCache.prev := TTLCache.prev n; TTLCache.next := TTLCache.next n |}.

(** The counters after a miss, a hit, and a store that evicted
    [evicted] entries. *)
Definition miss (s : TTLCache.stats) : TTLCache.stats :=
  TTLCache.Stats (TTLCache.hits s) (S (TTLCache.misses s)) (TTLCache.stores s) (TTLCache.evictions s).
Definition hit (s : TTLCache.stats) : TTLCache.stats :=
  TTLCache.Stats (S (TTLCache.hits s)) (TTLCache.misses s) (TTLCache.stores s) (TTLCache.evictions s).

Definition stored (s : TTLCache.stats) (evicted : nat) : TTLCache.stats :=
  TTLCache.Stats (TTLCache.hits s) (TTLCache.misses s) (S (TTLCache.stores s)) (TTLCache.evictions s + evicted).

(** A cache operation of a client, with the clock reading it sees. *)
Inductive op :=
| OpGet (now : Z) (k : string)
| OpSet (now : Z) (k : string) (v : TTLCache.value) (ttlOverrideMs : option Z).

Definition step (c : TTLCache.t) (o : op) : TTLCache.t :=
  match o with
  | OpGet now k => fst (TTLCache.get c now k)
  | OpSet now k v ttl => TTLCache.set c now k v ttl
  end.

Definition run (c : TTLCache.t) (ops : list op) : TTLCache.t :=
  foldl step c ops.

(** A run of [get]s only: the clock reading and the key of each. *)
Definition reads (qs : list (Z * string)) : list op :=
  List.map (λ q, OpGet (fst q) (snd q)) qs.


(** The expiry a [set] gives its entry. *)
Definition expiry_of (ttl : Z) (now : Z) (ttlOverrideMs : option Z) : Z :=
  now + default ttl ttlOverrideMs.








Definition is_set (o : op) : Prop :=
  match o with OpSet _ _ _ _ => True | OpGet _ _ => False end.

Definition op_key (o : op) : string :=
  match o with OpGet _ k => k | OpSet _ k _ _ => k end.

(** The recency list after an operation, from the list and the entries
    before it. *)
Definition order_step (c : TTLCache.t) (o : op) (l : list string)
  : list string :=
  match o with
  | OpGet now k =>
      match entries c !! k with
      | Some (_, e) => if bool_decide (e <= now) then unlink k l else touch k l
      | None => l
      end
  | OpSet now k v ttlO =>
      if decide (k ∈ l) then touch k l
      else take (Z.to_nat (TTLCache.maxEntries c)) (k :: l)
  end.

End LRU.

(* ===================================================================== *)
(** * More of rateLimiter.js and cache.js                                 *)
(* ===================================================================== *)

Module Admission.

(** The answers expected from [k] unit requests in a row at one clock
    reading against a bucket holding [z] whole tokens: the first [z] are
    admitted, counting the remaining tokens down to zero, the others are
    rejected. *)
Definition burst_expected (z : Z) (k : nat) : list RateLimiter.result :=
  List.map (λ i, if Z.of_nat i <? z
                 then RateLimiter.Result true (z - 1 - Z.of_nat i)
                 else RateLimiter.Result false 0)
           (seq 0 k).

End Admission.

Module Store.

(** Every public operation of the cache, with the clock reading where it
    has one. *)
Inductive call :=
| Get (now : Z) (k : string)
| Put (now : Z) (k : string) (v : TTLCache.value) (ttlOverrideMs : option Z)
| Del (k : string)
| Clear.

Definition apply (c : TTLCache.t) (o : call) : TTLCache.t :=
  match o with
  | Get now k => fst (TTLCache.get c now k)
  | Put now k v ttl => TTLCache.set c now k v ttl
  | Del k => fst (TTLCache.del c k)
  | Clear => TTLCache.clear c
  end.

Definition exec (c : TTLCache.t) (calls : list call) : TTLCache.t :=
  foldl apply c calls.

Definition is_get (o : call) : bool :=
  match o with Get _ _ => true | _ => false end.

Definition is_put (o : call) : bool :=
  match o with Put _ _ _ _ => true | _ => false end.

End Store.

(* ===================================================================== *)
(** * utils.js                                                            *)
(* ===================================================================== *)

Module Utils.

(** A value produced by [JSON.parse]. *)
Inductive json :=
| JNull
| JBool (b : bool)
| JNumber (q : Q)
| JString (s : string)
| JArray (items : list json)
| JObject (fields : list (string * json)).

(** The built-in functions the code calls and this development does not
    define: [crypto.createHash('sha256').update(s).digest('hex')],
    [JSON.parse] ([None] when it throws) and [String.prototype.trim]. *)
Record platform := Platform {
  sha256_hex : string → string;
  JSON_parse : string → option json;
  trim : string → string
}.

(** JavaScript truthiness of a parsed value. *)
Definition truthy (j : json) : bool :=
  match j with
  | JNull => false
  | JBool b => b
  | JNumber q => negb (Qeq_bool q 0)
  | JString s => negb (String.eqb s "")
  | JArray _ | JObject _ => true
  end.

(** Own property [fields[k]] of an object literal; a later duplicate
    overrides an earlier one. *)
Fixpoint field (fields : list (string * json)) (k : string) : option json :=
  match fields with
  | [] => None
  | (k', v) :: rest =>
      match field rest k with
      | Some x => Some x
      | None => if String.eqb k' k then Some v else None
      end
  end.

(** [j.k] for the property names the server reads ([stream], [key]),
    which only an object can have; [None] is [undefined]. *)
Definition prop (j : json) (k : string) : option json :=
  match j with
  | JObject fields => field fields k
  | _ => None
  end.

(** [String.prototype.toLowerCase] on the characters of an HTTP header
    value (one byte each, Latin-1). *)
Definition lower_char (a : ascii) : ascii :=
  let n := N_of_ascii a in
  if ((65 <=? n) && (n <=? 90))%N
     || ((192 <=? n) && (n <=? 222) && negb (n =? 215))%N
  then ascii_of_N (n + 32)
  else a.

Fixpoint toLowerCase (s : string) : string :=
  match s with
  | EmptyString => EmptyString
  | String a s' => String (lower_char a) (toLowerCase s')
  end.

(** [haystack.includes(needle)] *)
Fixpoint includes (needle haystack : string) : bool :=
  String.prefix needle haystack ||
  match haystack with
  | EmptyString => false
  | String _ rest => includes needle rest
  end.

(** [s.split(',')[0]] *)
Fixpoint before_comma (s : string) : string :=
  match s with
  | EmptyString => EmptyString
  | String a s' => if Ascii.eqb a "," then EmptyString
                   else String a (before_comma s')
  end.

(** [a || b] on strings, where [None] is [undefined]. *)
Definition or_else (a : option string) (b : option string) : option string :=
  match a with
  | Some s => if String.eqb s "" then b else Some s
  | None => b
  end.

(** [parseBoolean(s, fallback)] *)
Definition parseBoolean (s : option string) (fallback : bool) : bool :=
  match s with
  | None => fallback
  | Some s => bool_decide (toLowerCase s ∈ ["1"; "true"; "yes"; "on"])
  end.

(** [hashBody(body)] *)
Definition hashBody (P : platform) (body : string) : string :=
  sha256_hex P body.

(** [isLikelyStream(bodyObj)] *)
Definition isLikelyStream (bodyObj : json) : bool :=
  match bodyObj with
  | JObject _ | JArray _ =>
      match prop bodyObj "stream" with
      | Some (JBool true) => true
      | _ => false
      end
  | _ => false
  end.

(** [safeJsonParse(text)] *)
Definition safeJsonParse (P : platform) (text : string) : json :=
  match JSON_parse P text with
  | Some j => j
  | None => JNull
  end.

(** [pickClientId(req)], from [req.headers] and
    [req.socket.remoteAddress]. *)
Definition pickClientId (P : platform) (headers : gmap string string)
    (remoteAddress : option string) : string :=
  match or_else (headers !! "authorization") None with
  | Some auth => "key:" +:+ String.substring 0 16 (sha256_hex P auth)
  | None =>
      let forwarded :=
        match headers !! "x-forwarded-for" with
        | Some xff => Some (trim P (before_comma xff))
        | None => None
        end in
      match or_else (or_else forwarded remoteAddress) (Some "unknown") with
      | Some ip => "ip:" +:+ ip
      | None => "ip:unknown"
      end
  end.

(** [String.prototype.trim] on Latin-1 strings: tab, line feed, vertical
    tab, form feed, carriage return, space and no-break space. *)
Definition is_space (a : ascii) : bool :=
  bool_decide (N_of_ascii a ∈ [9; 10; 11; 12; 13; 32; 160]%N).

Fixpoint trim_start (s : string) : string :=
  match s with
  | EmptyString => EmptyString
  | String a s' => if is_space a then trim_start s' else s
  end.

Fixpoint trim_end (s : string) : string :=
  match s with
  | EmptyString => EmptyString
  | String a s' =>
      match trim_end s' with
      | EmptyString => if is_space a then EmptyString else String a EmptyString
      | t => String a t
      end
  end.

Definition trim_latin1 (s : string) : string := trim_end (trim_start s).

End Utils.

(* ===================================================================== *)
(** * server.js                                                           *)
(* ===================================================================== *)

Module Server.
Import Utils.

(** The configuration constants the request handler reads; the cache ttl
    and capacity and the bucket size and refill rate live in the cache and
    the limiter. *)
Record config := Config {
  UPSTREAM_API_KEY : string;
  UPSTREAM_AUTH_HEADER_NAME : string;
  CACHE_ONLY_SUCCESS : bool;
  ADMIN_TOKEN : string
}.

(** [counters] *)
Record counters := Counters {
  total_requests : nat;
  cache_hits : nat;
  cache_misses : nat;
  cache_bypass : nat;
  cache_stores : nat;
  rate_limited : nat;
  upstream_errors : nat;
  in_flight : Z
}.

(** The shared components: [counters], [cache], [limiter]. *)
Record state := State {
  cnt : counters;
  cache : TTLCache.t;
  limiter : RateLimiter.t
}.

(** An incoming request after Node and [new URL] have parsed it:
    [req.method], [url.pathname], [url.search], [req.headers] (names in
    lower case), the body read by [readBody] and
    [req.socket.remoteAddress]. *)
Record request := Request {
  method : string;
  path : string;
  search : string;
  headers : gmap string string;
  rawBody : string;
  remoteAddress : option string
}.

(** What [res.end] is given: a string or buffer, or an object that [done]
    serialises with [JSON.stringify]. *)
Inductive body :=
| Raw (s : string)
| Json (j : json).

(** The response: [res.statusCode], the headers set on [res] (names in
    lower case) and the body. *)
Record response := Response {
  r_status : Z;
  r_headers : gmap string string;
  r_body : body
}.

(** The argument of [fetch]: method, path and query of the upstream URL,
    headers and body ([None] for [undefined]). *)
Record fetch_request := FetchRequest {
  f_method : string;
  f_path : string;
  f_search : string;
  f_headers : gmap string string;
  f_body : option string
}.

(** The outcome of [fetch] followed by [arrayBuffer()]: a rejection
    (network failure or abort by the timeout), or status, headers (names in
    lower case) and body. *)
Inductive fetch_result :=
| FetchFailed
| FetchOk (status : Z) (hdrs : gmap string string) (payload : string).

(** What the environment supplies to one request: the readings of
    [Date.now()] inside [tryRemoveToken], [cache.get] and [cache.set],
    [process.uptime()], and the upstream. *)
Record world := World {
  t_limiter : Z;
  t_get : Z;
  t_set : Z;
  uptime : Q;
  fetch : fetch_request → fetch_result
}.

(** What the handler did for one request: the new shared state, the
    response, and the calls of [fetch] it made. *)
Record outcome := Outcome {
  o_state : state;
  o_response : response;
  o_fetches : list fetch_request
}.

(** ** Counter updates *)

Definition with_cnt (f : counters → counters) (s : state) : state :=
  {| cnt := f (cnt s); cache := cache s; limiter := limiter s |}.

Definition with_cache (c : TTLCache.t) (s : state) : state :=
  {| cnt := cnt s; cache := c; limiter := limiter s |}.

Definition with_limiter (l : RateLimiter.t) (s : state) : state :=
  {| cnt := cnt s; cache := cache s; limiter := l |}.

Definition begin_request (c : counters) : counters :=
  {| total_requests := S (total_requests c); cache_hits := cache_hits c;
     cache_misses := cache_misses c; cache_bypass := cache_bypass c;
     cache_stores := cache_stores c; rate_limited := rate_limited c;
     upstream_errors := upstream_errors c; in_flight := in_flight c + 1 |}.

Definition end_request (c : counters) : counters :=
  {| total_requests := total_requests c; cache_hits := cache_hits c;
     cache_misses := cache_misses c; cache_bypass := cache_bypass c;
     cache_stores := cache_stores c; rate_limited := rate_limited c;
     upstream_errors := upstream_errors c; in_flight := in_flight c - 1 |}.

Definition incr_cache_hits (c : counters) : counters :=
  {| total_requests := total_requests c; cache_hits := S (cache_hits c);
     cache_misses := cache_misses c; cache_bypass := cache_bypass c;
     cache_stores := cache_stores c; rate_limited := rate_limited c;
     upstream_errors := upstream_errors c; in_flight := in_flight c |}.

Definition incr_cache_misses (c : counters) : counters :=
  {| total_requests := total_requests c; cache_hits := cache_hits c;
     cache_misses := S (cache_misses c); cache_bypass := cache_bypass c;
     cache_stores := cache_stores c; rate_limited := rate_limited c;
     upstream_errors := upstream_errors c; in_flight := in_flight c |}.

Definition incr_cache_bypass (c : counters) : counters :=
  {| total_requests := total_requests c; cache_hits := cache_hits c;
     cache_misses := cache_misses c; cache_bypass := S (cache_bypass c);
     cache_stores := cache_stores c; rate_limited := rate_limited c;
     upstream_errors := upstream_errors c; in_flight := in_flight c |}.

Definition incr_cache_stores (c : counters) : counters :=
  {| total_requests := total_requests c; cache_hits := cache_hits c;
     cache_misses := cache_misses c; cache_bypass := cache_bypass c;
     cache_stores := S (cache_stores c); rate_limited := rate_limited c;
     upstream_errors := upstream_errors c; in_flight := in_flight c |}.

Definition incr_rate_limited (c : counters) : counters :=
  {| total_requests := total_requests c; cache_hits := cache_hits c;
     cache_misses := cache_misses c; cache_bypass := cache_bypass c;
     cache_stores := cache_stores c; rate_limited := S (rate_limited c);
     upstream_errors := upstream_errors c; in_flight := in_flight c |}.

Definition incr_upstream_errors (c : counters) : counters :=
  {| total_requests := total_requests c; cache_hits := cache_hits c;
     cache_misses := cache_misses c; cache_bypass := cache_bypass c;
     cache_stores := cache_stores c; rate_limited := rate_limited c;
     upstream_errors := S (upstream_errors c); in_flight := in_flight c |}.

(** ** Responses *)

(** [res.setHeader(k, v)]; every name the handler sets is in lower case:
    its own literals, and the names [fetch] reports. *)
Definition setHeader (k v : string) (h : gmap string string)
  : gmap string string :=
  <[k := v]> h.

(** [for (const [k, v] of Object.entries(headers)) res.setHeader(k, v)] *)
Definition setHeaders (entries : list (string * string))
    (h : gmap string string) : gmap string string :=
  foldl (λ acc kv, setHeader (fst kv) (snd kv) acc) h entries.

(** [done(status, body, headers)] with the headers [h] already set on
    [res]: it sets the status, and for an object body the JSON content
    type, and decrements [in_flight]. *)
Definition done (s : state) (h : gmap string string) (status : Z)
    (b : body) : state * response :=
  let h := match b with
           | Raw _ => h
           | Json _ => setHeader "content-type" "application/json; charset=utf-8" h
           end in
  (with_cnt end_request s,
   {| r_status := status; r_headers := h; r_body := b |}).

Definition error_body (fields : list (string * string)) : body :=
  Json (JObject (List.map (λ kv, (fst kv, JString (snd kv))) fields)).

(** ** Cache key *)

(** [hashString(s)] *)
Definition hashString (P : platform) (s : string) : string :=
  String.substring 0 16 (sha256_hex P s).

(** [authHeader]: [req.headers['authorization'] || ''] *)
Definition authHeader (req : request) : string :=
  default "" (headers req !! "authorization").

(** [authHash] *)
Definition authHash (P : platform) (cfg : config) (req : request) : string :=
  if negb (String.eqb (authHeader req) "")
  then "auth:" +:+ hashString P (authHeader req)
  else if negb (String.eqb (UPSTREAM_API_KEY cfg) "")
       then "auth:" +:+ hashString P (UPSTREAM_API_KEY cfg)
       else "auth:none".

(** [bodyKey] *)
Definition bodyKey (P : platform) (req : request) : string :=
  if String.eqb (method req) "GET" then ""
  else ":" +:+ hashBody P (rawBody req).

(** [cacheKey] *)
Definition cacheKey (P : platform) (cfg : config) (req : request) : string :=
  method req +:+ ":" +:+ path req +:+ search req +:+ ":"
    +:+ authHash P cfg req +:+ bodyKey P req.

(** ** Bypass *)

(** [parsed]: the body parsed as JSON when the content type says so,
    [null] otherwise. *)
Definition parsed (P : platform) (req : request) : json :=
  if includes "application/json" (default "" (headers req !! "content-type"))
  then safeJsonParse P (rawBody req)
  else JNull.

Definition cacheInvalidate (req : request) : bool :=
  parseBoolean (headers req !! "x-cache-invalidate") false.

(** [bypass], as a condition. *)
Definition bypass (P : platform) (req : request) : bool :=
  cacheInvalidate req || (truthy (parsed P req) && isLikelyStream (parsed P req)).

(** ** The upstream request *)

(** The headers sent upstream: the request headers with a non-empty value,
    without [connection], [content-length], [host] and [authorization];
    then the upstream credential, or else the inbound one.  [Headers]
    keeps names in lower case. *)
Definition upstream_headers (P : platform) (cfg : config) (req : request)
  : gmap string string :=
  let copied :=
    filter (λ kv, snd kv ≠ "" ∧
                  toLowerCase (fst kv) ∉
                    ["connection"; "content-length"; "host"; "authorization"])
           (headers req) in
  if negb (String.eqb (UPSTREAM_API_KEY cfg) "")
     && negb (String.eqb (trim P (UPSTREAM_API_KEY cfg)) "")
  then <[toLowerCase (UPSTREAM_AUTH_HEADER_NAME cfg) :=
           "Bearer " +:+ trim P (UPSTREAM_API_KEY cfg)]> copied
  else if negb (String.eqb (authHeader req) "")
       then <[toLowerCase (UPSTREAM_AUTH_HEADER_NAME cfg) := authHeader req]> copied
       else copied.

Definition upstream_request (P : platform) (cfg : config) (req : request)
  : fetch_request :=
  {| f_method := method req; f_path := path req; f_search := search req;
     f_headers := upstream_headers P cfg req;
     f_body := if bool_decide (method req ∈ ["GET"; "HEAD"]) then None
               else Some (rawBody req) |}.

(** [respHeaders]: the upstream headers without [transfer-encoding] and
    [connection], and the [x-cache] header already set on [res]. *)
Definition respHeaders (hdrs : gmap string string) (h : gmap string string)
  : gmap string string :=
  <["x-cache" := default "miss" (or_else (h !! "x-cache") None)]>
    (filter (λ kv, toLowerCase (fst kv) ∉ ["transfer-encoding"; "connection"])
       hdrs).

(** [shouldCache] *)
Definition shouldCache (P : platform) (cfg : config) (req : request)
    (status : Z) : bool :=
  let isOk := bool_decide (200 <= status) && bool_decide (status < 300) in
  negb (bypass P req) && (negb (CACHE_ONLY_SUCCESS cfg) || isOk)
    && String.eqb (method req) "POST".

(** ** The proxy pipeline *)

(** Forwarding to the upstream and answering from it (the code after the
    cache lookup), with [h] the headers already set on [res] and [key] the
    cache key. *)
Definition forward (P : platform) (cfg : config) (w : world) (s : state)
    (req : request) (h : gmap string string) (key : string) : outcome :=
  let fr := upstream_request P cfg req in
  match fetch w fr with
  | FetchFailed =>
      let s := with_cnt incr_upstream_errors s in
      let '(s, r) := done s h 502
                       (error_body [("error", "bad_gateway");
                                    ("message", "Upstream fetch failed")]) in
      {| o_state := s; o_response := r; o_fetches := [fr] |}
  | FetchOk status hdrs payload =>
      let rh := respHeaders hdrs h in
      let s :=
        if shouldCache P cfg req status then
          let c := TTLCache.set (cache s) (t_set w) key
                     (TTLCache.Value status (map_to_list rh) payload) None in
          with_cnt incr_cache_stores (with_cache c s)
        else s in
      {| o_state := s;
         o_response := {| r_status := status;
                          r_headers := setHeaders (map_to_list rh) h;
                          r_body := Raw payload |};
         o_fetches := [fr] |}
  end.

(** The handler for a [/v1/] path: admission, bypass, cache lookup,
    forwarding, store. *)
Definition pipeline (P : platform) (cfg : config) (w : world) (s : state)
    (req : request) : outcome :=
  let clientId := pickClientId P (headers req) (remoteAddress req) in
  let '(lim, rl) :=
    RateLimiter.tryRemoveToken (limiter s) (t_limiter w) clientId 1 in
  let s := with_limiter lim s in
  let h := setHeader "x-rate-remaining" (pretty (RateLimiter.remaining rl)) ∅ in
  if negb (RateLimiter.ok rl) then
    let s := with_cnt incr_rate_limited s in
    let h := setHeader "retry-after" "1" h in
    let '(s, r) := done s h 429
                     (error_body [("error", "rate_limited");
                                  ("message", "Too Many Requests")]) in
    {| o_state := s; o_response := r; o_fetches := [] |}
  else
    let key := cacheKey P cfg req in
    if bypass P req then
      let s := with_cnt incr_cache_bypass s in
      let h := setHeader "x-cache"
                 (if cacheInvalidate req then "bypass-invalidate" else "bypass")
                 h in
      forward P cfg w s req h key
    else
      let '(c, hit) := TTLCache.get (cache s) (t_get w) key in
      let s := with_cache c s in
      match hit with
      | Some v =>
          let s := with_cnt incr_cache_hits s in
          let h := setHeader "x-cache" "hit" h in
          let h := setHeaders (TTLCache.headers v) h in
          let s := with_cnt end_request s in
          {| o_state := s;
             o_response := {| r_status := TTLCache.status v; r_headers := h;
                              r_body := Raw (TTLCache.body v) |};
             o_fetches := [] |}
      | None =>
          let s := with_cnt incr_cache_misses s in
          let h := setHeader "x-cache" "miss" h in
          forward P cfg w s req h key
      end.

(** Whether the limiter admits the request. *)
Definition admitted (P : platform) (w : world) (s : state) (req : request)
  : bool :=
  RateLimiter.ok
    (snd (RateLimiter.tryRemoveToken (limiter s) (t_limiter w)
            (pickClientId P (headers req) (remoteAddress req)) 1)).

(** The [x-rate-remaining] header and the limiter after admission control. *)
Definition rate_header (P : platform) (w : world) (s : state) (req : request)
  : gmap string string :=
  setHeader "x-rate-remaining"
    (pretty (RateLimiter.remaining
       (snd (RateLimiter.tryRemoveToken (limiter s) (t_limiter w)
               (pickClientId P (headers req) (remoteAddress req)) 1)))) ∅.

Definition limiter_after (P : platform) (w : world) (s : state) (req : request)
  : RateLimiter.t :=
  fst (RateLimiter.tryRemoveToken (limiter s) (t_limiter w)
         (pickClientId P (headers req) (remoteAddress req)) 1).

(** Whether the lookup of the request's key finds a live entry. *)
Definition cached (P : platform) (cfg : config) (w : world) (s : state)
    (req : request) : option TTLCache.value :=
  snd (TTLCache.get (cache s) (t_get w) (cacheKey P cfg req)).

(** Whether the response came from the upstream: one call of [fetch],
    which succeeded. *)
Definition answered_by_upstream (w : world) (o : outcome) : bool :=
  match o_fetches o with
  | [fr] => match fetch w fr with FetchOk _ _ _ => true | FetchFailed => false end
  | _ => false
  end.

(** The condition under which the handler calls [cache.set]. *)
Definition stores_response (P : platform) (cfg : config) (w : world)
    (s : state) (req : request) : bool :=
  String.prefix "/v1/" (path req) && admitted P w s req &&
  negb (bypass P req) &&
  match cached P cfg w s req with Some _ => false | None => true end &&
  match fetch w (upstream_request P cfg req) with
  | FetchOk status _ _ => shouldCache P cfg req status
  | FetchFailed => false
  end.

(** ** The other routes *)

Definition newline : string := String (ascii_of_nat 10) EmptyString.
Definition dquote : string := String (ascii_of_nat 34) EmptyString.

(** The lines of [/metrics]: name and value. *)
Definition metrics_lines (s : state) : list (string * Z) :=
  let snap := TTLCache.snapshot (cache s) in
  let st := TTLCache.snap_stats snap in
  [("total_requests", Z.of_nat (total_requests (cnt s)));
   ("cache_hits", Z.of_nat (cache_hits (cnt s)));
   ("cache_misses", Z.of_nat (cache_misses (cnt s)));
   ("cache_bypass", Z.of_nat (cache_bypass (cnt s)));
   ("cache_stores", Z.of_nat (cache_stores (cnt s)));
   ("rate_limited", Z.of_nat (rate_limited (cnt s)));
   ("upstream_errors", Z.of_nat (upstream_errors (cnt s)));
   ("in_flight", in_flight (cnt s));
   ("cache_size", Z.of_nat (TTLCache.snap_size snap));
   ("cache_hits_internal", Z.of_nat (TTLCache.hits st));
   ("cache_misses_internal", Z.of_nat (TTLCache.misses st));
   ("cache_stores_internal", Z.of_nat (TTLCache.stores st));
   ("cache_evictions", Z.of_nat (TTLCache.evictions st));
   ("rate_buckets", Z.of_nat (size (RateLimiter.buckets (limiter s))));
   ("rate_limited_internal", Z.of_nat (RateLimiter.limited (limiter s)))].

(** [lines.join('\n') + '\n'] *)
Definition metrics_text (s : state) : string :=
  foldr (λ kv acc, fst kv +:+ " " +:+ pretty (snd kv) +:+ newline +:+ acc)
        "" (metrics_lines s).

(** [POST /admin/cache/purge] *)
Definition admin_purge (P : platform) (cfg : config) (s : state)
    (req : request) : state * response :=
  match or_else (headers req !! "x-admin-token") None with
  | None => done s ∅ 401 (error_body [("error", "unauthorized")])
  | Some token =>
      if negb (String.eqb token (ADMIN_TOKEN cfg)) then
        done s ∅ 401 (error_body [("error", "unauthorized")])
      else
        let adminObj :=
          let o := safeJsonParse P (rawBody req) in
          if truthy o then o else JObject [] in
        match prop adminObj "key" with
        | Some (JString k) =>
            if String.eqb k "*" then
              done (with_cache (TTLCache.clear (cache s)) s) ∅ 200
                (Json (JObject [("ok", JBool true); ("cleared", JBool true)]))
            else
              let '(c, deleted) := TTLCache.del (cache s) k in
              done (with_cache c s) ∅ 200
                (Json (JObject [("ok", JBool true); ("deleted", JBool deleted)]))
        | _ =>
            done s ∅ 400
              (error_body
                 [("error", "bad_request");
                  ("hint", "Provide {" +:+ dquote +:+ "key" +:+ dquote +:+ ":"
                             +:+ dquote +:+ "*" +:+ dquote
                             +:+ "} or a specific cache key")])
        end
  end.

(** The request handler of [http.createServer]. *)
Definition handle (P : platform) (cfg : config) (w : world) (s : state)
    (req : request) : outcome :=
  let s := with_cnt begin_request s in
  let answer (sr : state * response) : outcome :=
    {| o_state := fst sr; o_response := snd sr; o_fetches := [] |} in
  if String.eqb (path req) "/healthz" then
    answer (done s ∅ 200
              (Json (JObject [("status", JString "ok");
                              ("uptime_s", JNumber (uptime w))])))
  else if String.eqb (path req) "/metrics" then
    answer (done s (setHeader "content-type" "text/plain; charset=utf-8" ∅)
              200 (Raw (metrics_text s)))
  else if String.eqb (path req) "/admin/cache/purge"
          && String.eqb (method req) "POST" then
    answer (admin_purge P cfg s req)
  else if negb (String.prefix "/v1/" (path req)) then
    answer (done s ∅ 404
              (error_body
                 [("error", "not_found");
                  ("hint", "Use /v1/* endpoints or /healthz, /metrics")]))
  else pipeline P cfg w s req.

(** A stand-in for the built-ins, to run the handler on examples: the
    hash is replaced by an injective tagging of its input, [JSON.parse] by
    the given function. *)
Definition example_platform (parse : string → option json) : platform :=
  {| sha256_hex := λ s, "sha256(" +:+ s +:+ ")";
     JSON_parse := parse;
     trim := trim_latin1 |}.

Definition example_config : config :=
  {| UPSTREAM_API_KEY := ""; UPSTREAM_AUTH_HEADER_NAME := "Authorization";
     CACHE_ONLY_SUCCESS := true; ADMIN_TOKEN := "changeme" |}.

Definition example_state : state :=
  {| cnt := Counters 0 0 0 0 0 0 0 0;
     cache := TTLCache.new 60000 500;
     limiter := RateLimiter.new 60 1 |}.

Definition example_world (up : fetch_result) : world :=
  {| t_limiter := 1000; t_get := 1001; t_set := 1002; uptime := 1;
     fetch := λ _, up |}.

Definition example_request (m : string) (hs : gmap string string) : request :=
  {| method := m; path := "/v1/chat/completions"; search := "";
     headers := hs; rawBody := "{}"; remoteAddress := Some "10.0.0.1" |}.

End Server.

(* ===================================================================== *)
(** * The admission controller (rateLimiter.js)                           *)
(* ===================================================================== *)

Module RateLimiterFacts.
Import RateLimiter.


Lemma Qmin_le_l (x y : Q) : (Qmin x y <= x)%Q.
Proof. apply Q.le_min_l. Qed.

Lemma Qmin_glb (x y z : Q) : (z <= x)%Q → (z <= y)%Q → (z <= Qmin x y)%Q.
Proof. intros. apply Q.min_glb; assumption. Qed.

(** The code's [_refill] computes the specification's refill rule. *)
Lemma _refill_spec rl b now :
  _refill rl b now =
  {| tokens := spec_refilled (max rl) (refill rl) (tokens b)
                 (elapsedSeconds now (last b));
     last := now |}.
Proof. reflexivity. Qed.


(** The scenario of the specification: 61 requests within one second
    against a bucket of size 60 refilling at 1/sec; the 61st is rejected
    with [remaining = 0]. *)
Example burst_61 :
  let '(rl, rs) := burst 61 (new 60 1) 5000 "c" in
  List.last rs (Result true 0) = Result false 0 ∧
  forallb ok (removelast rs) = true ∧ limited rl = 1%nat.
Proof. vm_compute. repeat split. Qed.

(** [tryRemoveToken] in terms of the refilled amount. *)
Lemma tryRemoveToken_unfold rl now id n :
  tryRemoveToken rl now id n =
  let b0 := bucket_of rl now id in
  let refilled :=
    spec_refilled (max rl) (refill rl) (tokens b0)
      (elapsedSeconds now (last b0)) in
  if Qle_bool n refilled then
    ({| max := max rl; refill := refill rl;
        buckets := <[id := Bucket (refilled - n) now]> (buckets rl);
        limited := limited rl |},
     Result true (Qfloor (refilled - n)))
  else
    ({| max := max rl; refill := refill rl;
        buckets := <[id := Bucket refilled now]> (buckets rl);
        limited := S (limited rl) |},
     Result false (Qfloor refilled)).
Proof.
  unfold tryRemoveToken, bucket_of.
  destruct (buckets rl !! id); reflexivity.
Qed.

(** ** C1 *)


(** ** C7 *)







End RateLimiterFacts.

(* ===================================================================== *)
(** * The recency list of the cache (cache.js)                            *)
(* ===================================================================== *)

Module Chain.
Import LRU.
Module C := TTLCache.

(** ** Lists without duplicates *)

Lemma split_unique (a a' b b' : list string) (x : string) :
  NoDup (a ++ x :: b) → a ++ x :: b = a' ++ x :: b' → a = a' ∧ b = b'.
Proof.
  revert a'. induction a as [|y a IHa]; intros a' Hnd Heq.
  - destruct a' as [|y' a']; simplify_eq/=; [done |].
    apply NoDup_cons_1_1 in Hnd. set_solver.
  - destruct a' as [|y' a']; simplify_eq/=.
    + apply NoDup_cons_1_1 in Hnd. set_solver.
    + apply NoDup_cons_1_2 in Hnd.
      match goal with E : _ ++ _ = _ ++ _ |- _ =>
        destruct (IHa a' Hnd E) as [-> ->] end. done.
Qed.

Lemma unlink_notin k (l : list string) : k ∉ l → unlink k l = l.
Proof.
  unfold unlink. induction l as [|x l IH]; intros Hk; [reflexivity |].
  rewrite filter_cons. apply not_elem_of_cons in Hk as [Hne Hk].
  rewrite decide_True by done. f_equal. apply IH, Hk.
Qed.

Lemma unlink_split k (l1 l2 : list string) :
  NoDup (l1 ++ k :: l2) → unlink k (l1 ++ k :: l2) = l1 ++ l2.
Proof.
  intros Hnd. apply NoDup_app in Hnd as (_ & Hdisj & Hnd2).
  apply NoDup_cons in Hnd2 as [Hk2 _].
  unfold unlink. rewrite filter_app, filter_cons.
  rewrite decide_False by (intros ?; congruence).
  fold (unlink k l1). fold (unlink k l2).
  rewrite (unlink_notin k l2 Hk2). rewrite unlink_notin; [reflexivity |].
  intros Hin. apply (Hdisj k Hin). set_solver.
Qed.

Lemma elem_of_unlink k x (l : list string) : x ∈ unlink k l ↔ x ∈ l ∧ x ≠ k.
Proof. unfold unlink. rewrite list_elem_of_filter. tauto. Qed.


Lemma length_unlink k (l : list string) :
  NoDup l → k ∈ l → S (length (unlink k l)) = length l.
Proof.
  intros Hnd Hk. apply list_elem_of_split in Hk as (l1 & l2 & ->).
  rewrite unlink_split by assumption. rewrite !length_app. simpl. lia.
Qed.

(** ** Field assignments *)

Lemma map_set_prev r v c : C.map (C.set_prev r v c) = alter (C.with_prev v) r (C.map c).
Proof. reflexivity. Qed.
Lemma map_set_next r v c : C.map (C.set_next r v c) = alter (C.with_next v) r (C.map c).
Proof. reflexivity. Qed.

(** What [_detach] leaves in the map, in [head] and in [tail], for a
    stored node that is not its own neighbour. *)
Lemma detach_fields c k nk :
  C.map c !! k = Some nk → C.prev nk ≠ Some k → C.next nk ≠ Some k →
  C.map (C._detach k c) =
    alter (C.with_prev None) k (alter (C.with_next None) k
      (match C.next nk with
       | Some q => alter (C.with_prev (C.prev nk)) q
       | None => id
       end
         (match C.prev nk with
          | Some p => alter (C.with_next (C.next nk)) p
          | None => id
          end (C.map c)))) ∧
  C.head (C._detach k c) =
    match C.prev nk with Some _ => C.head c | None => C.next nk end ∧
  C.tail (C._detach k c) =
    match C.next nk with Some _ => C.tail c | None => C.prev nk end ∧
  C.st (C._detach k c) = C.st c ∧
  C.ttlMs (C._detach k c) = C.ttlMs c ∧
  C.maxEntries (C._detach k c) = C.maxEntries c.
Proof.
  intros Hk Hp Hn. unfold C._detach, C.get_prev, C.get_next. rewrite Hk.
  destruct (C.prev nk) as [p|] eqn:Ep; destruct (C.next nk) as [q|] eqn:En;
    simpl; rewrite ?lookup_alter_ne by congruence; rewrite ?Hk, ?Ep, ?En;
    simpl; rewrite ?lookup_alter_ne by congruence; rewrite ?Hk, ?Ep, ?En;
    simpl; repeat split; reflexivity.
Qed.

Lemma detach_lookup_ne c k nk x :
  C.map c !! k = Some nk → C.prev nk ≠ Some k → C.next nk ≠ Some k →
  x ≠ k →
  C.map (C._detach k c) !! x = relink nk x <$> C.map c !! x.
Proof.
  intros Hk Hp Hn Hx.
  destruct (detach_fields c k nk Hk Hp Hn) as (Hm & _). rewrite Hm.
  rewrite !lookup_alter_ne by congruence. unfold relink.
  destruct (C.prev nk) as [p|]; destruct (C.next nk) as [q|]; simpl;
    rewrite ?lookup_alter; repeat case_decide; simplify_eq;
    destruct (C.map c !! x) as [[]|]; reflexivity.
Qed.

Lemma detach_lookup_eq c k nk :
  C.map c !! k = Some nk → C.prev nk ≠ Some k → C.next nk ≠ Some k →
  C.map (C._detach k c) !! k =
    Some {| C.nvalue := C.nvalue nk; C.expiresAt := C.expiresAt nk;
            C.prev := None; C.next := None |}.
Proof.
  intros Hk Hp Hn.
  destruct (detach_fields c k nk Hk Hp Hn) as (Hm & _). rewrite Hm.
  rewrite !lookup_alter_eq.
  destruct (C.prev nk) as [p|]; destruct (C.next nk) as [q|]; simpl;
    rewrite ?lookup_alter_ne by congruence; rewrite Hk; reflexivity.
Qed.

(** ** Detaching a node of the chain *)

Lemma chained_node c l l1 k l2 :
  chained c l → l = l1 ++ k :: l2 →
  ∃ n, C.map c !! k = Some n ∧ C.prev n = last l1 ∧ C.next n = head l2.
Proof. intros (_ & _ & _ & H). apply H. Qed.

Lemma last_ne_of_NoDup (l1 l2 : list string) k :
  NoDup (l1 ++ k :: l2) → last l1 ≠ Some k ∧ head l2 ≠ Some k.
Proof.
  intros Hnd. apply NoDup_app in Hnd as (_ & Hdisj & Hnd2).
  apply NoDup_cons in Hnd2 as [Hk2 _]. split.
  - intros Hl. apply last_Some_elem_of in Hl. apply (Hdisj k Hl). set_solver.
  - intros Hh. apply head_Some_elem_of in Hh. done.
Qed.

Lemma last_mid (a b : list string) x :
  NoDup (a ++ x :: b) → last (a ++ x :: b) = Some x ↔ b = [].
Proof.
  intros Hnd. split.
  - intros Hl. destruct b as [|y b]; [reflexivity |]. exfalso.
    rewrite last_app in Hl. simpl in Hl.
    destruct (last (y :: b)) as [z|] eqn:E.
    + apply last_Some_elem_of in E. simplify_eq.
      apply NoDup_app in Hnd as (_ & _ & Hnd).
      apply NoDup_cons_1_1 in Hnd. contradiction.
    + apply last_None in E. discriminate.
  - intros ->. apply last_snoc.
Qed.

Lemma head_mid (a b : list string) x :
  NoDup (a ++ x :: b) → head (a ++ x :: b) = Some x ↔ a = [].
Proof.
  intros Hnd. split.
  - intros Hh. destruct a as [|y a]; [reflexivity |]. exfalso.
    simpl in Hh. simplify_eq. apply NoDup_cons_1_1 in Hnd. set_solver.
  - intros ->. reflexivity.
Qed.

Lemma chained_detach c l1 k l2 :
  chained c (l1 ++ k :: l2) →
  chained (C._detach k c) (l1 ++ l2) ∧
  (∃ nk, C.map c !! k = Some nk ∧
     C.map (C._detach k c) !! k =
       Some {| C.nvalue := C.nvalue nk; C.expiresAt := C.expiresAt nk;
               C.prev := None; C.next := None |}) ∧
  (∀ x, x ≠ k → x ∉ l1 → x ∉ l2 →
     C.map (C._detach k c) !! x = C.map c !! x).
Proof.
  intros Hch. pose proof Hch as (Hnd & Hhead & Htail & Hnodes).
  destruct (Hnodes l1 k l2 eq_refl) as (nk & Hk & Hpk & Hnk).
  destruct (last_ne_of_NoDup l1 l2 k Hnd) as [Hlk Hhk].
  assert (Hp : C.prev nk ≠ Some k) by (rewrite Hpk; exact Hlk).
  assert (Hn : C.next nk ≠ Some k) by (rewrite Hnk; exact Hhk).
  destruct (detach_fields c k nk Hk Hp Hn) as (_ & Hh' & Ht' & _).
  pose proof Hnd as Hnd'.
  apply NoDup_app in Hnd' as (Hnd1 & Hdisj & Hnd2').
  apply NoDup_cons in Hnd2' as [Hk2 Hnd2].
  assert (Hk1 : k ∉ l1) by (intros Hin; apply (Hdisj k Hin); set_solver).
  assert (Hnd12 : NoDup (l1 ++ l2)).
  { apply NoDup_app. split; [assumption |]. split; [| assumption].
    intros x Hx1 Hx2. apply (Hdisj x Hx1). set_solver. }
  split; [| split].
  - split; [assumption |]. split; [| split].
    + rewrite Hh', Hpk, Hnk, Hhead. destruct l1 as [|y l1]; [reflexivity |].
      destruct (last (y :: l1)) eqn:E; [reflexivity |].
      apply last_None in E. discriminate.
    + rewrite Ht', Hpk, Hnk, Htail.
      rewrite last_app. rewrite last_cons.
      destruct l2 as [|y l2]; simpl.
      * rewrite app_nil_r. destruct (last l1); reflexivity.
      * rewrite last_app. simpl. destruct (last (y :: l2)) eqn:E; [reflexivity |].
        apply last_None in E. discriminate.
    + intros a x b Heq.
      assert (Hx : x ∈ l1 ++ l2) by (rewrite Heq; set_solver).
      assert (Hxk : x ≠ k).
      { intros ->. apply elem_of_app in Hx as [?|?]; contradiction. }
      rewrite (detach_lookup_ne c k nk x Hk Hp Hn Hxk).
      apply elem_of_app in Hx as [Hx|Hx].
      * apply list_elem_of_split in Hx as (a1 & b1 & Hl1).
        assert (E1 : a ++ x :: b = a1 ++ x :: (b1 ++ l2)).
        { rewrite <- Heq, Hl1, <- app_assoc. reflexivity. }
        destruct (split_unique a a1 b (b1 ++ l2) x) as [-> ->];
          [rewrite <- Heq; exact Hnd12 | exact E1 |].
        destruct (Hnodes a1 x (b1 ++ k :: l2)) as (n & Hx & Hpx & Hnx).
        { rewrite Hl1, <- app_assoc. reflexivity. }
        rewrite Hx. simpl. eexists. split; [reflexivity |].
        unfold relink; simpl. rewrite Hpk, Hnk, Hpx, Hnx. split.
        -- rewrite decide_False; [reflexivity |].
           intros Hh. apply head_Some_elem_of in Hh.
           apply (Hdisj x); [rewrite Hl1 |]; set_solver.
        -- rewrite Hl1 in Hnd1 |- *.
           rewrite (decide_ext _ (b1 = [])) by (apply last_mid; exact Hnd1).
           destruct b1 as [|y b1]; [reflexivity |].
           rewrite decide_False by discriminate. reflexivity.
      * apply list_elem_of_split in Hx as (a1 & b1 & Hl2).
        assert (E1 : a ++ x :: b = (l1 ++ a1) ++ x :: b1).
        { rewrite <- Heq, Hl2, <- app_assoc. reflexivity. }
        destruct (split_unique a (l1 ++ a1) b b1 x) as [-> ->];
          [rewrite <- Heq; exact Hnd12 | exact E1 |].
        destruct (Hnodes (l1 ++ k :: a1) x b1) as (n & Hx & Hpx & Hnx).
        { rewrite Hl2, <- app_assoc. reflexivity. }
        rewrite Hx. simpl. eexists. split; [reflexivity |].
        unfold relink; simpl. rewrite Hpk, Hnk, Hpx, Hnx. split.
        -- rewrite Hl2 in Hnd2 |- *.
           rewrite (decide_ext _ (a1 = [])) by (apply head_mid; exact Hnd2).
           destruct a1 as [|y a1].
           ++ rewrite decide_True by reflexivity. rewrite app_nil_r.
              reflexivity.
           ++ rewrite decide_False by discriminate.
              rewrite !last_app_cons. apply last_cons_cons.
        -- rewrite decide_False; [reflexivity |].
           intros Hl. apply last_Some_elem_of in Hl.
           apply (Hdisj x Hl). rewrite Hl2. set_solver.
  - exists nk. split; [assumption |]. apply detach_lookup_eq; assumption.
  - intros x Hxk Hx1 Hx2.
    rewrite (detach_lookup_ne c k nk x Hk Hp Hn Hxk).
    destruct (C.map c !! x) as [n|]; [| reflexivity]. simpl. f_equal.
    unfold relink. rewrite Hpk, Hnk.
    rewrite !decide_False.
    + destruct n; reflexivity.
    + intros Hl. apply last_Some_elem_of in Hl. contradiction.
    + intros Hh. apply head_Some_elem_of in Hh. contradiction.
Qed.

(** ** Attaching a stored node in front of the chain *)

Lemma attach_fields c k :
  C.map (C._attach k c) =
    match C.head c with
    | Some h => alter (C.with_prev (Some k)) h
    | None => id
    end (alter (C.with_next (C.head c)) k
           (alter (C.with_prev None) k (C.map c))) ∧
  C.head (C._attach k c) = Some k ∧
  C.tail (C._attach k c) =
    match C.tail c with None => Some k | Some x => Some x end ∧
  C.st (C._attach k c) = C.st c ∧
  C.ttlMs (C._attach k c) = C.ttlMs c ∧
  C.maxEntries (C._attach k c) = C.maxEntries c.
Proof.
  destruct c as [ttl mx m [h|] [x|] s]; cbn; repeat split; reflexivity.
Qed.

Lemma chained_attach c l k nk :
  chained c l → k ∉ l → C.map c !! k = Some nk →
  chained (C._attach k c) (k :: l) ∧
  (∀ x, x ≠ k → x ∉ l → C.map (C._attach k c) !! x = C.map c !! x).
Proof.
  intros (Hnd & Hhead & Htail & Hnodes) Hk Hnk.
  destruct (attach_fields c k) as (Hm & Hh' & Ht' & _).
  assert (Hhk : C.head c ≠ Some k).
  { rewrite Hhead. intros Hh. apply head_Some_elem_of in Hh. contradiction. }
  split.
  - split; [apply NoDup_cons; split; assumption |].
    split; [rewrite Hh'; reflexivity |]. split.
    + rewrite Ht', Htail. rewrite last_cons. destruct (last l); reflexivity.
    + intros a x b Heq. rewrite Hm. destruct a as [|y a]; simplify_eq/=.
      * exists {| C.nvalue := C.nvalue nk; C.expiresAt := C.expiresAt nk;
                  C.prev := None; C.next := head b |}.
        split; [| split; reflexivity].
        rewrite <- Hhead.
        destruct (C.head c) as [h|]; simpl;
          rewrite ?lookup_alter_ne by congruence;
          rewrite !lookup_alter_eq, Hnk; reflexivity.
      * destruct (Hnodes a x b eq_refl) as (n & Hx & Hpx & Hnx).
        assert (Hxy : x ≠ y) by (intros ->; set_solver).
        rewrite Hhead.
        destruct a as [|z a]; simpl.
        -- rewrite lookup_alter_eq, !lookup_alter_ne by congruence.
           rewrite Hx. simpl. eexists. split; [reflexivity |].
           simpl. split; [reflexivity | exact Hnx].
        -- assert (Hzx : z ≠ x).
           { intros ->. apply NoDup_cons_1_1 in Hnd. set_solver. }
           rewrite !lookup_alter_ne by congruence. rewrite Hx.
           exists n. split; [reflexivity |].
           split; [rewrite Hpx; reflexivity | exact Hnx].
  - intros x Hxk Hxl. rewrite Hm.
    assert (Hhx : C.head c ≠ Some x).
    { rewrite Hhead. intros Hh. apply head_Some_elem_of in Hh. contradiction. }
    destruct (C.head c) as [h|]; simpl;
      rewrite !lookup_alter_ne by congruence; reflexivity.
Qed.

(** ** The stored values are not touched by the pointer surgery *)

Lemma entries_set_prev r v c : entries (C.set_prev r v c) = entries c.
Proof.
  unfold entries. simpl. apply map_eq. intros i.
  rewrite !lookup_fmap, lookup_alter. case_decide; [subst |reflexivity].
  destruct (C.map c !! i); reflexivity.
Qed.

Lemma entries_set_next r v c : entries (C.set_next r v c) = entries c.
Proof.
  unfold entries. simpl. apply map_eq. intros i.
  rewrite !lookup_fmap, lookup_alter. case_decide; [subst |reflexivity].
  destruct (C.map c !! i); reflexivity.
Qed.

Lemma entries_detach k c : entries (C._detach k c) = entries c.
Proof.
  unfold C._detach. cbv zeta.
  rewrite entries_set_prev, entries_set_next.
  set (c1 := match C.get_prev c k with
             | Some p => C.set_next p (C.get_next c k) c
             | None => C.set_head (C.get_next c k) c
             end).
  assert (E1 : entries c1 = entries c).
  { unfold c1. destruct (C.get_prev c k);
      [apply entries_set_next | reflexivity]. }
  destruct (C.get_next c1 k); [rewrite entries_set_prev |]; exact E1.
Qed.

Lemma entries_attach k c : entries (C._attach k c) = entries c.
Proof.
  destruct c as [ttl mx m [h|] [x|] s]; cbn;
    unfold entries; cbn; apply map_eq; intros i;
    rewrite !lookup_fmap, ?lookup_alter; repeat case_decide; subst;
    destruct (m !! i); reflexivity.
Qed.

Lemma entries_moveToFront k c : entries (C._moveToFront k c) = entries c.
Proof.
  unfold C._moveToFront. case_decide; [reflexivity |].
  rewrite entries_attach. apply entries_detach.
Qed.

Lemma entries_lookup c k :
  entries c !! k = (λ n, (C.nvalue n, C.expiresAt n)) <$> C.map c !! k.
Proof. unfold entries. apply lookup_fmap. Qed.

Lemma entries_is_Some c k : is_Some (entries c !! k) ↔ is_Some (C.map c !! k).
Proof. rewrite entries_lookup. apply fmap_is_Some. Qed.

(** ** Keys outside the chain *)

Lemma chained_keys c l k : chained c l → k ∈ l → is_Some (C.map c !! k).
Proof.
  intros Hch Hk. apply list_elem_of_split in Hk as (l1 & l2 & Hl).
  destruct (chained_node c l l1 k l2 Hch Hl) as (n & Hn & _). eauto.
Qed.

Lemma chained_ext c c' l :
  chained c l →
  (∀ k, k ∈ l → C.map c' !! k = C.map c !! k) →
  C.head c' = C.head c → C.tail c' = C.tail c →
  chained c' l.
Proof.
  intros (Hnd & Hh & Ht & Hnodes) Hsame Hh' Ht'.
  split; [assumption |]. split; [congruence |]. split; [congruence |].
  intros l1 k l2 Hl. rewrite Hsame by (rewrite Hl; set_solver).
  apply Hnodes, Hl.
Qed.

Lemma linked_size c l : linked c l → size (C.map c) = length l.
Proof.
  intros [Hch Hdom]. pose proof Hch as (Hnd & _).
  rewrite <- (size_dom (D := gset string)).
  assert (E : dom (C.map c) = list_to_set l).
  { apply set_eq. intros k. rewrite elem_of_dom, elem_of_list_to_set.
    split; [apply Hdom | apply (chained_keys c l k Hch)]. }
  rewrite E. apply size_list_to_set, Hnd.
Qed.

Lemma linked_new ttl mx : linked (C.new ttl mx) [].
Proof.
  split.
  - split; [constructor |]. split; [reflexivity |]. split; [reflexivity |].
    intros [|? ?] ? ? ?; discriminate.
  - intros k [n Hn]. cbn in Hn. rewrite lookup_empty in Hn. discriminate.
Qed.

Lemma linked_elem c l k : linked c l → k ∈ l ↔ is_Some (C.map c !! k).
Proof. intros [Hch Hdom]. split; [apply chained_keys, Hch | apply Hdom]. Qed.

(** The pointers spell out the chain: [order] reads [l] back. *)
Lemma walk_suffix c l l1 l2 :
  chained c l → l = l1 ++ l2 →
  walk (C.map c) (length l2) (head l2) = l2.
Proof.
  intros Hch. revert l1. induction l2 as [|k l2 IHl]; intros l1 Hl.
  - reflexivity.
  - simpl. destruct (chained_node c l l1 k l2 Hch Hl) as (n & Hn & _ & Hnx).
    rewrite Hn, Hnx. f_equal. apply (IHl (l1 ++ [k])).
    rewrite <- app_assoc. exact Hl.
Qed.

Lemma order_linked c l : linked c l → order c = l.
Proof.
  intros Hl. unfold order. rewrite (linked_size c l Hl).
  destruct Hl as [Hch _]. pose proof Hch as (_ & Hh & _). rewrite Hh.
  apply (walk_suffix c l [] l Hch eq_refl).
Qed.

(** ** Moving a node to the front *)

Lemma touch_head k (l : list string) : NoDup (k :: l) → touch k (k :: l) = k :: l.
Proof.
  intros Hnd. unfold touch. f_equal. apply (unlink_split k [] l Hnd).
Qed.

Lemma moveToFront_fields k c :
  C.st (C._moveToFront k c) = C.st c ∧
  C.ttlMs (C._moveToFront k c) = C.ttlMs c ∧
  C.maxEntries (C._moveToFront k c) = C.maxEntries c.
Proof.
  unfold C._moveToFront. case_decide; [done |].
  destruct (attach_fields (C._detach k c) k) as (_ & _ & _ & -> & -> & ->).
  unfold C._detach. cbv zeta.
  destruct (C.get_prev c k); (destruct (C.get_next _ k)); done.
Qed.

Lemma linked_moveToFront c l k :
  linked c l → k ∈ l → linked (C._moveToFront k c) (touch k l).
Proof.
  intros [Hch Hdom] Hk. pose proof Hch as (Hnd & Hh & _).
  unfold C._moveToFront. case_decide as Hhead.
  - rewrite Hh in Hhead. apply head_Some in Hhead as [l' ->].
    rewrite touch_head by assumption. split; assumption.
  - apply list_elem_of_split in Hk as (l1 & l2 & ->).
    destruct (chained_detach c l1 k l2 Hch) as (Hch1 & (nk & _ & Hk1) & _).
    pose proof Hnd as Hnd'.
    apply NoDup_app in Hnd' as (_ & Hdisj & Hnd2).
    apply NoDup_cons in Hnd2 as [Hk2 _].
    assert (Hk12 : k ∉ l1 ++ l2).
    { intros [Hin|Hin]%elem_of_app; [| contradiction].
      apply (Hdisj k Hin). set_solver. }
    destruct (chained_attach _ _ k _ Hch1 Hk12 Hk1) as [Hch2 _].
    unfold touch. rewrite unlink_split by assumption.
    split; [assumption |].
    intros x Hx. apply entries_is_Some in Hx.
    rewrite entries_attach, entries_detach in Hx.
    apply entries_is_Some, Hdom in Hx. set_solver.
Qed.

(** ** Removing a node *)

Lemma entries_remove k c : entries (remove k c) = delete k (entries c).
Proof.
  transitivity (delete k (entries (C._detach k c))).
  - unfold remove, entries. cbn. apply fmap_delete.
  - rewrite entries_detach. reflexivity.
Qed.

Lemma remove_fields k c nk :
  C.map c !! k = Some nk → C.prev nk ≠ Some k → C.next nk ≠ Some k →
  C.st (remove k c) = C.st c ∧ C.ttlMs (remove k c) = C.ttlMs c ∧
  C.maxEntries (remove k c) = C.maxEntries c.
Proof.
  intros Hk Hp Hn.
  destruct (detach_fields c k nk Hk Hp Hn) as (_ & _ & _ & H1 & H2 & H3).
  unfold remove. cbn. done.
Qed.

Lemma linked_remove c l k :
  linked c l → k ∈ l →
  linked (remove k c) (unlink k l) ∧
  C.st (remove k c) = C.st c ∧ C.ttlMs (remove k c) = C.ttlMs c ∧
  C.maxEntries (remove k c) = C.maxEntries c.
Proof.
  intros [Hch Hdom] Hk. pose proof Hch as (Hnd & _).
  apply list_elem_of_split in Hk as (l1 & l2 & ->).
  destruct (chained_detach c l1 k l2 Hch) as (Hch1 & _ & _).
  destruct (chained_node c _ l1 k l2 Hch eq_refl) as (nk & Hnk & Hpk & Hnxk).
  destruct (last_ne_of_NoDup l1 l2 k Hnd) as [Hlk Hhk].
  rewrite unlink_split by assumption.
  pose proof Hnd as Hnd'.
  apply NoDup_app in Hnd' as (_ & Hdisj & Hnd2).
  apply NoDup_cons in Hnd2 as [Hk2 _].
  assert (Hk12 : k ∉ l1 ++ l2).
  { intros [Hin|Hin]%elem_of_app; [| contradiction].
    apply (Hdisj k Hin). set_solver. }
  split; [split |].
  - apply (chained_ext (C._detach k c)); try reflexivity; [assumption |].
    intros x Hx. unfold remove. cbn. apply lookup_delete_ne.
    intros ->. contradiction.
  - intros x Hx. apply entries_is_Some in Hx. rewrite entries_remove in Hx.
    destruct (decide (x = k)) as [->|Hne].
    + rewrite lookup_delete_eq in Hx. destruct Hx; discriminate.
    + rewrite lookup_delete_ne in Hx by congruence.
      apply entries_is_Some, Hdom in Hx. set_solver.
  - apply (remove_fields k c nk Hnk); congruence.
Qed.

End Chain.

(* ===================================================================== *)
(** * The cache operations on the recency list (cache.js)                 *)
(* ===================================================================== *)

Module CacheOps.
Import LRU Chain.
Module C := TTLCache.

(** ** Inserting a new node *)

Lemma linked_insert c l k n :
  linked c l → C.map c !! k = None →
  let c1 := C._attach k (C.set_map (<[k := n]> (C.map c)) c) in
  linked c1 (k :: l) ∧
  entries c1 = <[k := (C.nvalue n, C.expiresAt n)]> (entries c) ∧
  C.st c1 = C.st c ∧ C.ttlMs c1 = C.ttlMs c ∧
  C.maxEntries c1 = C.maxEntries c.
Proof.
  intros Hl Hk c1. pose proof Hl as [Hch Hdom].
  assert (Hkl : k ∉ l).
  { intros Hin. apply (linked_elem c l k Hl) in Hin as [? ?]. congruence. }
  set (c0 := C.set_map (<[k := n]> (C.map c)) c) in *.
  assert (Hch0 : chained c0 l).
  { apply (chained_ext c); try reflexivity; [assumption |].
    intros x Hx. cbn. apply lookup_insert_ne. intros ->. contradiction. }
  assert (Hk0 : C.map c0 !! k = Some n) by (cbn; apply lookup_insert_eq).
  destruct (chained_attach c0 l k n Hch0 Hkl Hk0) as [Hch1 _].
  assert (He : entries c1 = <[k := (C.nvalue n, C.expiresAt n)]> (entries c)).
  { unfold c1. rewrite entries_attach. unfold c0, entries. cbn.
    rewrite fmap_insert. reflexivity. }
  split; [split |].
  - exact Hch1.
  - intros x Hx. apply entries_is_Some in Hx. rewrite He in Hx.
    destruct (decide (x = k)) as [->|Hne]; [set_solver |].
    rewrite lookup_insert_ne in Hx by congruence.
    apply entries_is_Some, Hdom in Hx. set_solver.
  - split; [exact He |].
    destruct (attach_fields c0 k) as (_ & _ & _ & H1 & H2 & H3).
    unfold c1. rewrite H1, H2, H3. done.
Qed.

(** ** Evicting from the tail *)

Lemma evict_tail_remove r c : C.evict_tail r c = C.incr_evictions (remove r c).
Proof. reflexivity. Qed.

Lemma st_incr_evictions c :
  C.st (C.incr_evictions c) =
    C.Stats (C.hits (C.st c)) (C.misses (C.st c)) (C.stores (C.st c))
      (S (C.evictions (C.st c))).
Proof. reflexivity. Qed.

Lemma linked_incr_evictions c l : linked c l → linked (C.incr_evictions c) l.
Proof. intros H. exact H. Qed.

Lemma linked_evict_tail c l r :
  linked c (l ++ [r]) →
  linked (C.evict_tail r c) l ∧
  entries (C.evict_tail r c) = delete r (entries c) ∧
  C.st (C.evict_tail r c) =
    C.Stats (C.hits (C.st c)) (C.misses (C.st c)) (C.stores (C.st c))
      (S (C.evictions (C.st c))) ∧
  C.ttlMs (C.evict_tail r c) = C.ttlMs c ∧
  C.maxEntries (C.evict_tail r c) = C.maxEntries c.
Proof.
  intros Hl. pose proof Hl as [(Hnd & _) _].
  destruct (linked_remove c (l ++ [r]) r Hl) as (Hl' & Hst & Httl & Hmax);
    [set_solver |].
  rewrite unlink_split in Hl' by assumption. rewrite app_nil_r in Hl'.
  rewrite evict_tail_remove.
  split; [exact Hl' |]. split; [apply entries_remove |].
  split; [| split; assumption].
  rewrite st_incr_evictions, Hst. reflexivity.
Qed.

Lemma evict_loop_spec fuel : ∀ c l,
  linked c l →
  (length l ≤ fuel + Z.to_nat (C.maxEntries c))%nat →
  let c' := C.evict_loop fuel c in
  let n := Z.to_nat (C.maxEntries c) in
  linked c' (take n l) ∧
  (∀ x, entries c' !! x =
        if decide (x ∈ take n l) then entries c !! x else None) ∧
  C.st c' =
    C.Stats (C.hits (C.st c)) (C.misses (C.st c)) (C.stores (C.st c))
      (C.evictions (C.st c) + (length l - n)) ∧
  C.ttlMs c' = C.ttlMs c ∧ C.maxEntries c' = C.maxEntries c.
Proof.
  assert (Hstop : ∀ c l, linked c l →
            (length l ≤ Z.to_nat (C.maxEntries c))%nat →
            let n := Z.to_nat (C.maxEntries c) in
            linked c (take n l) ∧
            (∀ x, entries c !! x =
                  if decide (x ∈ take n l) then entries c !! x else None) ∧
            C.st c =
              C.Stats (C.hits (C.st c)) (C.misses (C.st c)) (C.stores (C.st c))
                (C.evictions (C.st c) + (length l - n)) ∧
            C.ttlMs c = C.ttlMs c ∧ C.maxEntries c = C.maxEntries c).
  { intros c l Hl Hlen n. rewrite take_ge by exact Hlen.
    split; [exact Hl |]. split; [| split; [| done]].
    - intros x. case_decide as Hx; [reflexivity |].
      destruct (entries c !! x) eqn:E; [| reflexivity].
      exfalso. apply Hx. apply (linked_elem c l x Hl).
      apply entries_is_Some. eauto.
    - replace (length l - n)%nat with 0%nat by lia.
      rewrite Nat.add_0_r. destruct (C.st c); reflexivity. }
  induction fuel as [|fuel IH]; intros c l Hl Hlen.
  - apply Hstop; [exact Hl | lia].
  - cbn [C.evict_loop]. rewrite (linked_size c l Hl).
    case_decide as Hcond; [| apply Hstop; [exact Hl | lia]].
    pose proof Hl as [(Hnd & _ & Htail & _) _].
    destruct (C.tail c) as [r|] eqn:Et.
    + symmetry in Htail. apply last_Some in Htail as [l' ->].
      destruct (linked_evict_tail c l' r Hl) as (Hl' & He & Hst & Httl & Hmax).
      rewrite length_app in Hlen, Hcond |- *. simpl in Hlen, Hcond |- *.
      destruct (IH (C.evict_tail r c) l' Hl') as (H1 & H2 & H3 & H4 & H5).
      { rewrite Hmax. lia. }
      rewrite Hmax in H1, H2, H3.
      assert (Hn : (Z.to_nat (C.maxEntries c) ≤ length l')%nat) by lia.
      rewrite take_app_le by exact Hn.
      split; [exact H1 |]. split; [| split; [| split; congruence]].
      * intros x. rewrite H2. case_decide as Hx; [| reflexivity].
        rewrite He. apply lookup_delete_ne. intros Hrx. rewrite <- Hrx in Hx.
        apply NoDup_app in Hnd as (_ & Hdisj & _).
        apply (Hdisj r); [| set_solver].
        apply (subseteq_take (Z.to_nat (C.maxEntries c)) l'). exact Hx.
      * rewrite H3, Hst. cbn. f_equal. lia.
    + symmetry in Htail. apply last_None in Htail. subst l.
      apply Hstop; [exact Hl | simpl; lia].
Qed.

(** The loop stops because its condition fails, not for lack of fuel. *)
Lemma evictIfNeeded_spec c l :
  linked c l →
  let c' := C._evictIfNeeded c in
  let n := Z.to_nat (C.maxEntries c) in
  linked c' (take n l) ∧
  (∀ x, entries c' !! x =
        if decide (x ∈ take n l) then entries c !! x else None) ∧
  C.st c' =
    C.Stats (C.hits (C.st c)) (C.misses (C.st c)) (C.stores (C.st c))
      (C.evictions (C.st c) + (length l - n)) ∧
  C.ttlMs c' = C.ttlMs c ∧ C.maxEntries c' = C.maxEntries c.
Proof.
  intros Hl. unfold C._evictIfNeeded. apply evict_loop_spec; [exact Hl |].
  rewrite (linked_size c l Hl). lia.
Qed.

(** ** Overwriting the payload of a node *)

Lemma chained_payload c l k v e :
  chained c l → chained (C.set_map (alter (with_payload v e) k (C.map c)) c) l.
Proof.
  intros (Hnd & Hh & Ht & Hnodes).
  split; [assumption |]. split; [assumption |]. split; [assumption |].
  intros l1 x l2 Hl. destruct (Hnodes l1 x l2 Hl) as (n & Hx & Hp & Hn).
  cbn. rewrite lookup_alter. case_decide; subst; rewrite Hx; simpl; eauto.
Qed.

Lemma entries_payload c k v e :
  is_Some (C.map c !! k) →
  entries (C.set_map (alter (with_payload v e) k (C.map c)) c) =
  <[k := (v, e)]> (entries c).
Proof.
  intros [n Hn]. unfold entries. cbn. apply map_eq. intros i.
  rewrite lookup_fmap, lookup_alter, lookup_insert, lookup_fmap.
  case_decide; subst; [rewrite Hn |]; reflexivity.
Qed.

(** ** [get] *)

Lemma get_spec c l now k :
  linked c l →
  let c' := fst (C.get c now k) in
  let r := snd (C.get c now k) in
  match entries c !! k with
  | None =>
      r = None ∧ linked c' l ∧ entries c' = entries c ∧
      C.st c' = miss (C.st c)
  | Some (v, e) =>
      if bool_decide (e <= now) then
        r = None ∧ linked c' (unlink k l) ∧
        entries c' = delete k (entries c) ∧ C.st c' = miss (C.st c)
      else
        r = Some v ∧ linked c' (touch k l) ∧
        entries c' = entries c ∧ C.st c' = hit (C.st c)
  end ∧
  C.ttlMs c' = C.ttlMs c ∧ C.maxEntries c' = C.maxEntries c.
Proof.
  intros Hl c' r. subst c' r. unfold C.get. rewrite entries_lookup.
  destruct (C.map c !! k) as [n|] eqn:Hk; simpl.
  - assert (Hin : k ∈ l) by (apply (linked_elem c l k Hl); eauto).
    unfold C._isExpired. destruct (bool_decide (C.expiresAt n <= now)); simpl.
    + destruct (linked_remove c l k Hl Hin) as (Hl' & Hst & Httl & Hmax).
      change (C.set_map (delete k (C.map (C._detach k c))) (C._detach k c))
        with (remove k c).
      split; [| split; assumption].
      split; [reflexivity |]. split; [exact Hl' |].
      split; [apply entries_remove |].
      change (C.st (C.incr_misses (remove k c)) = miss (C.st c)).
      cbn [C.incr_misses C.set_st C.st]. rewrite Hst. reflexivity.
    + destruct (moveToFront_fields k c) as (Hst & Httl & Hmax).
      split; [| split; assumption].
      split; [reflexivity |].
      split; [apply (linked_moveToFront c l k Hl Hin) |].
      split; [apply entries_moveToFront |].
      change (C.st (C.incr_hits (C._moveToFront k c)) = hit (C.st c)).
      cbn [C.incr_hits C.set_st C.st]. rewrite Hst. reflexivity.
  - repeat split; try reflexivity; apply Hl.
Qed.

(** ** [set] *)

Lemma set_spec c l now k v ttlO :
  linked c l →
  let e := now + default (C.ttlMs c) ttlO in
  let n := Z.to_nat (C.maxEntries c) in
  let c' := C.set c now k v ttlO in
  (if decide (k ∈ l) then
     linked c' (touch k l) ∧
     entries c' = <[k := (v, e)]> (entries c) ∧
     C.st c' = stored (C.st c) 0
   else
     linked c' (take n (k :: l)) ∧
     (∀ x, entries c' !! x =
           if decide (x ∈ take n (k :: l))
           then <[k := (v, e)]> (entries c) !! x else None) ∧
     C.st c' = stored (C.st c) (length (k :: l) - n)) ∧
  C.ttlMs c' = C.ttlMs c ∧ C.maxEntries c' = C.maxEntries c.
Proof.
  intros Hl e n c'. subst c'. unfold C.set.
  assert (Ettl : match ttlO with Some x => x | None => C.ttlMs c end
                 = default (C.ttlMs c) ttlO) by (destruct ttlO; reflexivity).
  rewrite Ettl. fold e.
  destruct (C.map c !! k) as [nk|] eqn:Hk.
  - assert (Hin : k ∈ l) by (apply (linked_elem c l k Hl); eauto).
    rewrite decide_True by exact Hin.
    set (c0 := C.set_map (alter _ k (C.map c)) c).
    assert (E0 : c0 = C.set_map (alter (with_payload v e) k (C.map c)) c)
      by reflexivity.
    assert (Hl0 : linked c0 l).
    { rewrite E0. destruct Hl as [Hch Hdom]. split.
      - apply chained_payload, Hch.
      - intros x Hx. apply Hdom. cbn in Hx.
        rewrite lookup_alter in Hx. case_decide; subst; [| exact Hx].
        rewrite Hk in Hx |- *. eauto. }
    destruct (moveToFront_fields k c0) as (Hst & Httl & Hmax).
    split; [| split; assumption].
    split; [apply (linked_moveToFront c0 l k Hl0 Hin) |].
    split.
    + change (entries (C._moveToFront k c0) = <[k := (v, e)]> (entries c)).
      rewrite entries_moveToFront, E0. apply entries_payload. eauto.
    + change (C.st (C.incr_stores (C._moveToFront k c0)) = stored (C.st c) 0).
      cbn [C.incr_stores C.set_st C.st]. rewrite Hst.
      unfold stored. rewrite Nat.add_0_r. reflexivity.
  - assert (Hnin : k ∉ l).
    { intros Hin. apply (linked_elem c l k Hl) in Hin as [? ?]. congruence. }
    rewrite decide_False by exact Hnin.
    set (nd := {| C.nvalue := v; C.expiresAt := e;
                  C.prev := None; C.next := None |}).
    destruct (linked_insert c l k nd Hl Hk) as (Hl1 & He1 & Hst1 & Httl1 & Hmax1).
    set (c1 := C._attach k (C.set_map (<[k := nd]> (C.map c)) c)) in *.
    destruct (evictIfNeeded_spec c1 (k :: l) Hl1) as (Hl2 & He2 & Hst2 & Httl2 & Hmax2).
    rewrite Hmax1 in Hl2, He2, Hst2. fold n in Hl2, He2, Hst2.
    split; [| split; cbn; congruence].
    split; [exact Hl2 |]. split.
    + intros x. change (entries (C._evictIfNeeded c1) !! x =
        if decide (x ∈ take n (k :: l))
        then <[k := (v, e)]> (entries c) !! x else None).
      rewrite He2, He1. reflexivity.
    + change (C.st (C.incr_stores (C._evictIfNeeded c1)) =
              stored (C.st c) (length (k :: l) - n)).
      cbn [C.incr_stores C.set_st C.st]. rewrite Hst2, Hst1. reflexivity.
Qed.

End CacheOps.

(* ===================================================================== *)
(** * The response cache: capacity, recency and expiry (cache.js)         *)
(* ===================================================================== *)

Module CacheFacts.
Import LRU Chain CacheOps.
Module C := TTLCache.

(** ** Every operation keeps the structure and the capacity *)

Lemma length_touch k (l : list string) :
  NoDup l → k ∈ l → length (touch k l) = length l.
Proof. intros Hnd Hk. unfold touch. simpl. apply length_unlink; assumption. Qed.

Lemma length_unlink_le k (l : list string) : (length (unlink k l) ≤ length l)%nat.
Proof. unfold unlink. apply length_filter. Qed.

Lemma linked_NoDup c l : linked c l → NoDup l.
Proof. intros [(H & _) _]. exact H. Qed.

Lemma linked_unique c l l' : linked c l → linked c l' → l = l'.
Proof. intros H H'. rewrite <- (order_linked c l H). apply order_linked, H'. Qed.

Lemma get_wf c now k : wf c → wf (fst (C.get c now k)).
Proof.
  intros (l & Hl & Hlen).
  destruct (get_spec c l now k Hl) as (Hcase & _ & Hmax).
  unfold wf. rewrite Hmax.
  destruct (entries c !! k) as [[v e]|] eqn:Ek.
  - assert (Hin : k ∈ l).
    { apply (linked_elem c l k Hl), entries_is_Some. eauto. }
    destruct (bool_decide (e <= now)).
    + destruct Hcase as (_ & Hl' & _). exists (unlink k l).
      split; [exact Hl' |]. pose proof (length_unlink_le k l). lia.
    + destruct Hcase as (_ & Hl' & _). exists (touch k l).
      split; [exact Hl' |].
      rewrite length_touch; [exact Hlen | apply (linked_NoDup c l Hl) | exact Hin].
  - destruct Hcase as (_ & Hl' & _). exists l. split; assumption.
Qed.

Lemma set_wf c now k v ttlO : wf c → wf (C.set c now k v ttlO).
Proof.
  intros (l & Hl & Hlen).
  destruct (set_spec c l now k v ttlO Hl) as (Hcase & _ & Hmax).
  unfold wf. rewrite Hmax.
  destruct (decide (k ∈ l)) as [Hin|Hnin].
  - destruct Hcase as (Hl' & _). exists (touch k l). split; [exact Hl' |].
    rewrite length_touch; [exact Hlen | apply (linked_NoDup c l Hl) | exact Hin].
  - destruct Hcase as (Hl' & _). eexists. split; [exact Hl' |].
    rewrite length_take. lia.
Qed.

Lemma step_wf c o : wf c → wf (step c o).
Proof. destruct o; [apply get_wf | apply set_wf]. Qed.

Lemma run_wf ops : ∀ c, wf c → wf (run c ops).
Proof.
  induction ops as [|o ops IH]; intros c Hc; [exact Hc |].
  apply IH, step_wf, Hc.
Qed.

Lemma new_wf ttl mx : wf (C.new ttl mx).
Proof. exists []. split; [apply linked_new | simpl; lia]. Qed.

Lemma step_config c o :
  wf c → C.ttlMs (step c o) = C.ttlMs c ∧ C.maxEntries (step c o) = C.maxEntries c.
Proof.
  intros (l & Hl & _). destruct o as [now k | now k v ttlO]; simpl.
  - apply (get_spec c l now k Hl).
  - apply (set_spec c l now k v ttlO Hl).
Qed.

Lemma run_config ops : ∀ c,
  wf c → C.ttlMs (run c ops) = C.ttlMs c ∧ C.maxEntries (run c ops) = C.maxEntries c.
Proof.
  induction ops as [|o ops IH]; intros c Hc; [done |].
  simpl. destruct (IH (step c o) (step_wf c o Hc)) as [-> ->].
  apply step_config, Hc.
Qed.

Lemma wf_size c : wf c → (size (C.map c) ≤ Z.to_nat (C.maxEntries c))%nat.
Proof. intros (l & Hl & Hlen). rewrite (linked_size c l Hl). exact Hlen. Qed.

Lemma wf_order c : wf c → linked c (order c).
Proof. intros (l & Hl & _). rewrite (order_linked c l Hl). exact Hl. Qed.

(** ** C3 *)

Lemma get_entries c now k :
  wf c →
  entries (fst (C.get c now k)) =
  match entries c !! k with
  | Some (_, e) => if bool_decide (e <= now) then delete k (entries c)
                   else entries c
  | None => entries c
  end.
Proof.
  intros (l & Hl & _). destruct (get_spec c l now k Hl) as (Hcase & _).
  destruct (entries c !! k) as [[v e]|]; [destruct (bool_decide (e <= now)) |];
    apply Hcase.
Qed.

Lemma get_result c now k :
  wf c →
  snd (C.get c now k) =
  match entries c !! k with
  | Some (v, e) => if bool_decide (e <= now) then None else Some v
  | None => None
  end.
Proof.
  intros (l & Hl & _). destruct (get_spec c l now k Hl) as (Hcase & _).
  destruct (entries c !! k) as [[v e]|]; [destruct (bool_decide (e <= now)) |];
    apply Hcase.
Qed.

Lemma set_entries_key c now k v ttlO :
  wf c → 0 < C.maxEntries c →
  entries (C.set c now k v ttlO) !! k = Some (v, expiry_of (C.ttlMs c) now ttlO).
Proof.
  intros (l & Hl & _) Hmax.
  destruct (set_spec c l now k v ttlO Hl) as (Hcase & _).
  destruct (decide (k ∈ l)).
  - destruct Hcase as (_ & -> & _). apply lookup_insert_eq.
  - destruct Hcase as (_ & -> & _).
    destruct (Z.to_nat (C.maxEntries c)) as [|m] eqn:En; [lia |].
    simpl. rewrite decide_True by set_solver. apply lookup_insert_eq.
Qed.

(** Reads at times before the expiry [e] keep the entry of [k]. *)
Lemma reads_keep k v e q qs : ∀ c,
  wf c → entries c !! k = Some (v, e) → q < e →
  Forall (λ r, fst r <= q) qs →
  entries (run c (reads qs)) !! k = Some (v, e).
Proof.
  induction qs as [|[now k'] qs IH]; intros c Hc Hk Hq Hqs; [exact Hk |].
  apply Forall_cons in Hqs as [Hnow Hqs]. simpl in Hnow |- *.
  apply IH; [apply get_wf, Hc | | exact Hq | exact Hqs].
  rewrite (get_entries c now k' Hc).
  destruct (entries c !! k') as [[v' e']|] eqn:Ek'; [| exact Hk].
  destruct (bool_decide (e' <= now)) eqn:Eb; [| exact Hk].
  apply bool_decide_eq_true in Eb.
  destruct (decide (k' = k)) as [->|Hne].
  - rewrite Hk in Ek'. simplify_eq. lia.
  - rewrite lookup_delete_ne by exact Hne. exact Hk.
Qed.

(** Reads of other keys never touch the entry of [k]. *)
Lemma reads_other k qs : ∀ c,
  wf c → Forall (λ r, snd r ≠ k) qs →
  entries (run c (reads qs)) !! k = entries c !! k.
Proof.
  induction qs as [|[now k'] qs IH]; intros c Hc Hqs; [reflexivity |].
  apply Forall_cons in Hqs as [Hne Hqs]. simpl in Hne |- *.
  rewrite IH; [| apply get_wf, Hc | exact Hqs].
  rewrite (get_entries c now k' Hc).
  destruct (entries c !! k') as [[v' e']|]; [| reflexivity].
  destruct (bool_decide (e' <= now)); [| reflexivity].
  apply lookup_delete_ne. exact Hne.
Qed.

(** Reads can only purge the entry of [k], never change it. *)
Lemma reads_purge_only k x qs : ∀ c,
  wf c → entries c !! k = Some x ∨ entries c !! k = None →
  entries (run c (reads qs)) !! k = Some x ∨
  entries (run c (reads qs)) !! k = None.
Proof.
  induction qs as [|[now k'] qs IH]; intros c Hc Hk; [exact Hk |].
  simpl. apply IH; [apply get_wf, Hc |].
  rewrite (get_entries c now k' Hc).
  destruct (entries c !! k') as [[v' e']|]; [| exact Hk].
  destruct (bool_decide (e' <= now)); [| exact Hk].
  destruct (decide (k' = k)) as [->|Hne].
  - right. apply lookup_delete_eq.
  - rewrite lookup_delete_ne by exact Hne. exact Hk.
Qed.

Lemma reads_wf qs c : wf c → wf (run c (reads qs)).
Proof. apply run_wf. Qed.

(** C3. A key stored at time [t] with ttl [d] (so with expiry
    [e = t + d]) in a cache of capacity at least one, followed by reads
    only, none of them later than the query: a [get] of the key at a
    time [q < e] returns the stored value; a [get] at a time [q >= e]
    returns absent and purges the entry at that moment; and until a
    [get] of that key the entry stays stored, expired or not. *)
Theorem get_after_set_ttl (c : C.t) (t : Z) (k : string) (v : C.value)
    (ttlO : option Z) (qs : list (Z * string)) (q : Z) :
  wf c → 0 < C.maxEntries c →
  Forall (λ r, fst r <= q) qs →
  let e := expiry_of (C.ttlMs c) t ttlO in
  let c2 := run (C.set c t k v ttlO) (reads qs) in
  (q < e → snd (C.get c2 q k) = Some v) ∧
  (e <= q →
     snd (C.get c2 q k) = None ∧
     C.map (fst (C.get c2 q k)) !! k = None ∧
     k ∉ order (fst (C.get c2 q k))) ∧
  (Forall (λ r, snd r ≠ k) qs → entries c2 !! k = Some (v, e)).
Proof.
  intros Hc Hmax Hqs e c2.
  assert (Hc1 : wf (C.set c t k v ttlO)) by (apply set_wf, Hc).
  assert (Hk1 : entries (C.set c t k v ttlO) !! k = Some (v, e))
    by (apply set_entries_key; assumption).
  assert (Hc2 : wf c2) by (apply reads_wf, Hc1).
  split; [| split].
  - intros Hq. rewrite (get_result c2 q k Hc2).
    unfold c2. rewrite (reads_keep k v e q qs _ Hc1 Hk1 Hq Hqs).
    rewrite bool_decide_eq_false_2 by lia. reflexivity.
  - intros Hq.
    assert (Hnone : entries (fst (C.get c2 q k)) !! k = None).
    { rewrite (get_entries c2 q k Hc2).
      destruct (reads_purge_only k (v, e) qs _ Hc1 (or_introl Hk1)) as [Hk2|Hk2];
        fold c2 in Hk2; rewrite Hk2.
      - rewrite bool_decide_eq_true_2 by lia. apply lookup_delete_eq.
      - exact Hk2. }
    split; [| split].
    + rewrite (get_result c2 q k Hc2).
      destruct (reads_purge_only k (v, e) qs _ Hc1 (or_introl Hk1)) as [Hk2|Hk2];
        fold c2 in Hk2; rewrite Hk2; [| reflexivity].
      rewrite bool_decide_eq_true_2 by lia. reflexivity.
    + rewrite entries_lookup in Hnone.
      destruct (C.map (fst (C.get c2 q k)) !! k); [discriminate | reflexivity].
    + intros Hin.
      pose proof (wf_order _ (get_wf c2 q k Hc2)) as Hl.
      apply (linked_elem _ _ k Hl), entries_is_Some in Hin.
      rewrite Hnone in Hin. destruct Hin; discriminate.
  - intros Hother. unfold c2. rewrite (reads_other k qs _ Hc1 Hother).
    exact Hk1.
Qed.

(** The theorem on an empty cache of capacity two with the default ttl
    of one minute: a value stored at time 0, a read of another key at
    time 5, then a query at time 59999 (present) and one at time 60000
    (absent, purged). *)
Lemma get_after_set_ttl_witness :
  let v := C.Value 200 [] "ok" in
  let c2 := run (C.set (C.new 60000 2) 0 "k" v None) (reads [(5, "other")]) in
  (snd (C.get c2 59999 "k") = Some v ∧ entries c2 !! "k" = Some (v, 60000)) ∧
  (snd (C.get c2 60000 "k") = None ∧
   C.map (fst (C.get c2 60000 "k")) !! "k" = None ∧
   "k" ∉ order (fst (C.get c2 60000 "k"))).
Proof.
  split.
  - destruct (get_after_set_ttl (C.new 60000 2) 0 "k" (C.Value 200 [] "ok")
                None [(5, "other")] 59999) as (H1 & _ & H3).
    + apply new_wf.
    + reflexivity.
    + repeat constructor; simpl; lia.
    + split; [apply H1; reflexivity |].
      apply H3. repeat constructor. simpl. discriminate.
  - destruct (get_after_set_ttl (C.new 60000 2) 0 "k" (C.Value 200 [] "ok")
                None [(5, "other")] 60000) as (_ & H2 & _).
    + apply new_wf.
    + reflexivity.
    + repeat constructor; simpl; lia.
    + apply H2. discriminate.
Defined.

(** ** C8 *)

Lemma live_lookup c now k :
  live c now !! k =
  match entries c !! k with
  | Some (v, e) => if bool_decide (now < e) then Some v else None
  | None => None
  end.
Proof.
  unfold live. rewrite lookup_fmap, map_lookup_filter.
  destruct (entries c !! k) as [[v e]|]; simpl; [| reflexivity].
  case_guard; simpl in *.
  - rewrite bool_decide_eq_true_2 by assumption. reflexivity.
  - rewrite bool_decide_eq_false_2 by assumption. reflexivity.
Qed.

Lemma get_unknown c now k :
  C.map c !! k = None → C.get c now k = (C.incr_misses c, None).
Proof. intros H. unfold C.get. rewrite H. reflexivity. Qed.

(** A [get] of a key whose entry is stored but expired does more than
    count a miss: it removes the entry.  A value stored at time 0 with
    the default ttl of 60000 is not logically present at time 60000, and
    the [get] at that time empties the store. *)
Lemma get_expired_purges :
  let c := C.set (C.new 60000 2) 0 "k" (C.Value 200 [] "ok") None in
  let c1 := fst (C.get c 60000 "k") in
  live c 60000 !! "k" = None ∧
  snd (C.get c 60000 "k") = None ∧
  (C.snap_size (C.snapshot c) = 1 ∧ C.snap_size (C.snapshot c1) = 0)%nat ∧
  (order c = ["k"] ∧ order c1 = []) ∧
  (is_Some (entries c !! "k") ∧ entries c1 !! "k" = None).
Proof.
  cbv zeta. split; [vm_compute; reflexivity |].
  split; [vm_compute; reflexivity |].
  split; [split; vm_compute; reflexivity |].
  split; [split; vm_compute; reflexivity |].
  split; [eexists; vm_compute; reflexivity | vm_compute; reflexivity].
Qed.

(** C8 (amended). For a key that is not logically present, [get] returns
    absent and counts one miss; it leaves every other entry, the relative
    recency order of the other keys and the other counters unchanged.
    If the key has no stored entry, the miss counter is the only change;
    if its entry is stored but expired, that entry is also removed from
    the map and from the recency list.  After this first call the key has
    no stored entry, so every repeated [get] returns absent and changes
    the miss counter only. *)
Theorem get_absent_idempotent (c : C.t) (now : Z) (k : string) :
  wf c → live c now !! k = None →
  let c1 := fst (C.get c now k) in
  snd (C.get c now k) = None ∧
  C.st c1 = miss (C.st c) ∧
  entries c1 = delete k (entries c) ∧
  order c1 = unlink k (order c) ∧
  (C.map c !! k = None → c1 = C.incr_misses c) ∧
  (∀ now', C.get c1 now' k = (C.incr_misses c1, None)).
Proof.
  intros Hc Hlive c1. pose proof Hc as (l & Hl & _).
  rewrite (order_linked c l Hl).
  pose proof (wf_order _ (get_wf c now k Hc)) as Hl1. fold c1 in Hl1.
  destruct (get_spec c l now k Hl) as (Hcase & _). fold c1 in Hcase.
  rewrite live_lookup in Hlive.
  assert (H : snd (C.get c now k) = None ∧ C.st c1 = miss (C.st c) ∧
              entries c1 = delete k (entries c) ∧ linked c1 (unlink k l)).
  { destruct (entries c !! k) as [[v e]|] eqn:Ek.
    - destruct (bool_decide (now < e)) eqn:Eb; [discriminate |].
      apply bool_decide_eq_false in Eb.
      rewrite bool_decide_eq_true_2 in Hcase by lia.
      destruct Hcase as (? & ? & ? & ?). done.
    - destruct Hcase as (? & Hl' & He & ?).
      split; [assumption |]. split; [assumption |].
      split; [rewrite delete_id by exact Ek; exact He |].
      rewrite unlink_notin; [exact Hl' |].
      intros Hin. apply (linked_elem c l k Hl), entries_is_Some in Hin.
      rewrite Ek in Hin. destruct Hin; discriminate. }
  destruct H as (Hr & Hst & He & Hl').
  split; [exact Hr |]. split; [exact Hst |]. split; [exact He |].
  split; [apply (order_linked c1 _ Hl') |].
  split.
  - intros Hk. unfold c1. rewrite (get_unknown c now k Hk). reflexivity.
  - intros now'. apply get_unknown.
    assert (Hnone : entries c1 !! k = None)
      by (rewrite He; apply lookup_delete_eq).
    rewrite entries_lookup in Hnone.
    destruct (C.map c1 !! k); [discriminate | reflexivity].
Qed.

(** The theorem on the state of the example above: the key "k" stored
    at time 0 is no longer logically present at time 60000. *)
Lemma get_absent_idempotent_witness :
  let c := C.set (C.new 60000 2) 0 "k" (C.Value 200 [] "ok") None in
  let c1 := fst (C.get c 60000 "k") in
  snd (C.get c 60000 "k") = None ∧
  C.st c1 = miss (C.st c) ∧
  entries c1 = delete "k" (entries c) ∧
  order c1 = unlink "k" (order c) ∧
  (C.map c !! "k" = None → c1 = C.incr_misses c) ∧
  (∀ now', C.get c1 now' "k" = (C.incr_misses c1, None)).
Proof.
  apply (get_absent_idempotent
           (C.set (C.new 60000 2) 0 "k" (C.Value 200 [] "ok") None) 60000 "k").
  - apply set_wf, new_wf.
  - vm_compute. reflexivity.
Defined.

End CacheFacts.

(* ===================================================================== *)
(** * The response cache: least-recently-used eviction (cache.js)         *)
(* ===================================================================== *)

Module EvictionFacts.
Import LRU Chain CacheOps CacheFacts.
Module C := TTLCache.

#[local] Arguments TTLCache.set : simpl never.
#[local] Arguments TTLCache.get : simpl never.

(** ** Recency lists cut at the capacity *)






(** ** One operation, seen on the recency list *)

Lemma order_step_spec c o :
  wf c → order (step c o) = order_step c o (order c).
Proof.
  intros Hc. pose proof (wf_order c Hc) as Hl.
  destruct o as [now k | now k v ttlO]; simpl.
  - destruct (get_spec c _ now k Hl) as (Hcase & _).
    destruct (entries c !! k) as [[v e]|];
      [destruct (bool_decide (e <= now)) |];
      destruct Hcase as (_ & Hl' & _); apply order_linked, Hl'.
  - destruct (set_spec c _ now k v ttlO Hl) as (Hcase & _).
    destruct (decide (k ∈ order c));
      destruct Hcase as (Hl' & _); apply order_linked, Hl'.
Qed.

Lemma elem_of_order c k : wf c → k ∈ order c ↔ is_Some (entries c !! k).
Proof.
  intros Hc. rewrite entries_is_Some.
  apply (linked_elem c _ k (wf_order c Hc)).
Qed.

(** What is stored after a [set]: the keys of the new recency list, the
    written key with its new value and expiry, the others as before. *)
Lemma set_entries c now k v ttlO :
  wf c → ∀ x,
  entries (C.set c now k v ttlO) !! x =
  if decide (x ∈ order (C.set c now k v ttlO))
  then <[k := (v, expiry_of (C.ttlMs c) now ttlO)]> (entries c) !! x
  else None.
Proof.
  intros Hc x. pose proof (wf_order c Hc) as Hl.
  pose proof (order_step_spec c (OpSet now k v ttlO) Hc) as Ho.
  simpl in Ho. rewrite Ho.
  destruct (set_spec c _ now k v ttlO Hl) as (Hcase & _).
  destruct (decide (k ∈ order c)) as [Hin|Hnin].
  - destruct Hcase as (_ & -> & _). case_decide as Hx; [reflexivity |].
    unfold touch in Hx. rewrite not_elem_of_cons, elem_of_unlink in Hx.
    destruct Hx as [Hne Hx]. rewrite lookup_insert_ne by congruence.
    destruct (entries c !! x) eqn:E; [| reflexivity].
    exfalso. apply Hx. split; [| exact Hne].
    apply (elem_of_order c x Hc). eauto.
  - destruct Hcase as (_ & He & _). apply He.
Qed.

(** ** Runs without expiry follow the touch history *)




(** ** Runs of insertions of new keys *)

Lemma take_app_take n (a b : list string) :
  take n (a ++ take n b) = take n (a ++ b).
Proof.
  rewrite !take_app. f_equal. rewrite take_take. f_equal. lia.
Qed.

Lemma run_app c ops1 ops2 : run c (ops1 ++ ops2) = run (run c ops1) ops2.
Proof. apply foldl_app. Qed.

Lemma set_new_order c now k v ttlO :
  wf c → k ∉ order c →
  order (C.set c now k v ttlO) =
    take (Z.to_nat (C.maxEntries c)) (k :: order c) ∧
  C.evictions (C.st (C.set c now k v ttlO)) =
    (C.evictions (C.st c) + (S (length (order c)) - Z.to_nat (C.maxEntries c)))%nat.
Proof.
  intros Hc Hk. pose proof (wf_order c Hc) as Hl.
  destruct (set_spec c _ now k v ttlO Hl) as (Hcase & _).
  rewrite decide_False in Hcase by exact Hk.
  destruct Hcase as (Hl' & _ & Hst).
  split; [apply order_linked, Hl' | rewrite Hst; reflexivity].
Qed.

Lemma sets_order ops : ∀ c,
  wf c → Forall is_set ops → NoDup (op_key <$> ops) →
  (∀ k, k ∈ op_key <$> ops → k ∉ order c) →
  order (run c ops) =
    take (Z.to_nat (C.maxEntries c)) (reverse (op_key <$> ops) ++ order c) ∧
  C.evictions (C.st (run c ops)) =
    (C.evictions (C.st c) +
     (length (order c) + length ops - Z.to_nat (C.maxEntries c)))%nat.
Proof.
  induction ops as [|o ops IH]; intros c Hc Hsets Hnd Hdisj.
  - simpl. pose proof Hc as (l & Hl & Hlen).
    rewrite (order_linked c l Hl). rewrite take_ge by exact Hlen.
    split; [reflexivity | lia].
  - apply Forall_cons in Hsets as [Ho Hsets].
    destruct o as [now k | now k v ttlO]; [destruct Ho |].
    rewrite fmap_cons in Hnd, Hdisj. simpl in Hnd, Hdisj.
    apply NoDup_cons in Hnd as [Hk Hnd].
    assert (Hkc : k ∉ order c) by (apply Hdisj; set_solver).
    destruct (set_new_order c now k v ttlO Hc Hkc) as [Ho1 He1].
    destruct (step_config c (OpSet now k v ttlO) Hc) as [_ Hmax].
    cbn [step] in Hmax.
    destruct (IH (C.set c now k v ttlO)) as [Ho2 He2].
    + apply set_wf, Hc.
    + exact Hsets.
    + exact Hnd.
    + intros k' Hk'. rewrite Ho1. intros Hin.
      apply (subseteq_take _ (k :: order c)) in Hin.
      apply elem_of_cons in Hin as [->|Hin]; [contradiction |].
      apply (Hdisj k'); [set_solver | exact Hin].
    + rewrite Hmax in Ho2, He2.
      change (run c (OpSet now k v ttlO :: ops))
        with (run (C.set c now k v ttlO) ops).
      split.
      * rewrite Ho2, Ho1. rewrite take_app_take.
        rewrite fmap_cons, reverse_cons, <- app_assoc. reflexivity.
      * rewrite He2, He1, Ho1. rewrite length_take. cbn [length].
        pose proof Hc as (l & Hl & Hlen).
        rewrite (order_linked c l Hl).
        generalize dependent (Z.to_nat (C.maxEntries c)). intros n.
        intros. destruct (Nat.min_spec n (S (length l))) as [[? ->]|[? ->]]; lia.
Qed.

Lemma sets_purge_only k x ops : ∀ c,
  wf c → entries c !! k = Some x ∨ entries c !! k = None →
  Forall is_set ops → k ∉ op_key <$> ops →
  entries (run c ops) !! k = Some x ∨ entries (run c ops) !! k = None.
Proof.
  induction ops as [|o ops IH]; intros c Hc Hk Hsets Hnk; [exact Hk |].
  apply Forall_cons in Hsets as [Ho Hsets].
  destruct o as [now k' | now k' v ttlO]; [destruct Ho |].
  rewrite fmap_cons in Hnk. apply not_elem_of_cons in Hnk as [Hne Hnk].
  simpl in Hne |- *.
  apply IH; [apply set_wf, Hc | | exact Hsets | exact Hnk].
  rewrite (set_entries c now k' v ttlO Hc).
  case_decide; [| right; reflexivity].
  rewrite lookup_insert_ne by congruence. exact Hk.
Qed.

Lemma sets_entries ops c now k v ttlO :
  wf c → Forall is_set ops → NoDup (op_key <$> ops) →
  OpSet now k v ttlO ∈ ops → k ∈ order (run c ops) →
  entries (run c ops) !! k = Some (v, expiry_of (C.ttlMs c) now ttlO).
Proof.
  intros Hc Hsets Hnd Hin Hk.
  apply list_elem_of_split in Hin as (ops1 & ops2 & ->).
  rewrite fmap_app, fmap_cons in Hnd. simpl in Hnd.
  apply NoDup_app in Hnd as (_ & _ & Hnd2).
  apply NoDup_cons in Hnd2 as [Hk2 _].
  apply Forall_app in Hsets as [_ Hsets2].
  apply Forall_cons in Hsets2 as [_ Hsets2].
  rewrite run_app in Hk |- *. simpl in Hk |- *.
  set (c1 := run c ops1) in *.
  assert (Hc1 : wf c1) by (apply run_wf, Hc).
  destruct (run_config ops1 c Hc) as [Httl _]. fold c1 in Httl.
  rewrite <- Httl.
  assert (Hc2 : wf (C.set c1 now k v ttlO)) by (apply set_wf, Hc1).
  destruct (sets_purge_only k (v, expiry_of (C.ttlMs c1) now ttlO) ops2
              (C.set c1 now k v ttlO) Hc2) as [H|H].
  - rewrite (set_entries c1 now k v ttlO Hc1).
    case_decide; [left; apply lookup_insert_eq | right; reflexivity].
  - exact Hsets2.
  - exact Hk2.
  - exact H.
  - exfalso. apply (elem_of_order _ k) in Hk; [| apply run_wf, Hc2].
    change (foldl step (C.set c1 now k v ttlO) ops2)
      with (run (C.set c1 now k v ttlO) ops2) in Hk.
    rewrite H in Hk. destruct Hk; discriminate.
Qed.

(** ** C9 *)

(** C9. Inserting [C+1] distinct keys into an empty cache of capacity
    [C], with no reads in between, evicts exactly one entry, the one of
    the first-inserted key: afterwards the recency list holds the other
    [C] keys, latest first, each with the value and expiry of its
    insertion, the first key is not stored, and at any time before those
    expiries the logically present keys are exactly the other [C] keys. *)
Theorem first_inserted_is_evicted (C : nat) (ttl : Z) (ops : list op)
    (k0 : string) (rest : list string) :
  Forall is_set ops → op_key <$> ops = k0 :: rest → NoDup (k0 :: rest) →
  length rest = C →
  let c := run (C.new ttl (Z.of_nat C)) ops in
  order c = reverse rest ∧
  C.map c !! k0 = None ∧
  C.evictions (C.st c) = 1%nat ∧
  (∀ now k v ttlO, OpSet now k v ttlO ∈ ops → k ≠ k0 →
     entries c !! k = Some (v, expiry_of ttl now ttlO)) ∧
  (∀ q, (∀ now k v ttlO, OpSet now k v ttlO ∈ ops →
           q < expiry_of ttl now ttlO) →
     dom (live c q) = list_to_set rest).
Proof.
  intros Hsets Hkeys Hnd Hlen c.
  set (c0 := C.new ttl (Z.of_nat C)) in *.
  assert (Hc0 : wf c0) by apply new_wf.
  assert (Hc : wf c) by (apply run_wf, Hc0).
  assert (Hnd' : NoDup (op_key <$> ops)) by (rewrite Hkeys; exact Hnd).
  destruct (sets_order ops c0 Hc0 Hsets Hnd') as [Ho He].
  { intros k _. cbn. set_solver. }
  fold c in Ho, He.
  assert (Hlen' : length ops = S C).
  { rewrite <- (length_fmap op_key), Hkeys. simpl. lia. }
  assert (Horder : order c = reverse rest).
  { rewrite Ho, Hkeys.
    change (C.maxEntries c0) with (Z.of_nat C).
    replace (order c0) with (@nil string) by reflexivity.
    rewrite Nat2Z.id, app_nil_r, reverse_cons.
    apply take_app_length'. rewrite length_reverse. lia. }
  assert (Hin : ∀ k, k ∈ order c ↔ k ∈ rest).
  { intros k. rewrite Horder. apply elem_of_reverse. }
  assert (Hk0 : k0 ∉ rest) by (apply NoDup_cons_1_1, Hnd).
  assert (Hstored : ∀ now k v ttlO, OpSet now k v ttlO ∈ ops → k ≠ k0 →
            entries c !! k = Some (v, expiry_of ttl now ttlO)).
  { intros now k v ttlO Hop Hne.
    apply (sets_entries ops c0 now k v ttlO Hc0 Hsets Hnd' Hop).
    apply Hin. assert (Hk : k ∈ op_key <$> ops).
    { apply list_elem_of_fmap. exists (OpSet now k v ttlO). split; done. }
    rewrite Hkeys in Hk. set_solver. }
  split; [exact Horder |]. split; [| split; [| split; [exact Hstored |]]].
  - destruct (C.map c !! k0) eqn:E; [| reflexivity].
    exfalso. apply Hk0, Hin. apply (elem_of_order c k0 Hc).
    apply entries_is_Some. eauto.
  - rewrite He. change (C.maxEntries c0) with (Z.of_nat C).
    replace (order c0) with (@nil string) by reflexivity.
    change (C.evictions (C.st c0)) with 0%nat.
    rewrite Hlen', Nat2Z.id. simpl. lia.
  - intros q Hq. apply set_eq. intros k.
    rewrite elem_of_dom, elem_of_list_to_set, live_lookup.
    split.
    + intros Hk. apply Hin, (elem_of_order c k Hc).
      destruct (entries c !! k); [eauto | destruct Hk; discriminate].
    + intros Hk.
      assert (Hop : ∃ o, o ∈ ops ∧ op_key o = k).
      { assert (Hk' : k ∈ op_key <$> ops) by (rewrite Hkeys; set_solver).
        apply list_elem_of_fmap in Hk' as (o & -> & Ho'). eauto. }
      destruct Hop as (o & Hop & Hko).
      pose proof (proj1 (Forall_forall _ _) Hsets o Hop) as Hset.
      destruct o as [? ? | now k' v ttlO]; [destruct Hset |].
      simpl in Hko. subst k'.
      rewrite (Hstored now k v ttlO Hop) by (intros ->; contradiction).
      rewrite bool_decide_eq_true_2 by (apply (Hq now k v ttlO Hop)).
      eauto.
Qed.

(** The theorem for capacity two and the keys "a", "b", "c". *)
Lemma first_inserted_is_evicted_witness :
  let v := C.Value 200 [] "ok" in
  let ops := [OpSet 0 "a" v None; OpSet 1 "b" v None; OpSet 2 "c" v None] in
  let c := run (C.new 60000 2) ops in
  order c = ["c"; "b"] ∧
  C.map c !! "a" = None ∧
  C.evictions (C.st c) = 1%nat ∧
  entries c !! "b" = Some (v, 60001) ∧
  dom (live c 3) = list_to_set ["b"; "c"].
Proof.
  intros v ops c.
  destruct (first_inserted_is_evicted 2 60000 ops "a" ["b"; "c"])
    as (H1 & H2 & H3 & H4 & H5).
  - repeat constructor.
  - reflexivity.
  - repeat constructor; rewrite ?elem_of_cons, elem_of_nil;
      intros H; repeat destruct H as [H|H]; discriminate || destruct H.
  - reflexivity.
  - split; [exact H1 |]. split; [exact H2 |]. split; [exact H3 |].
    split.
    + apply (H4 1 "b" v None); [| discriminate].
      apply elem_of_cons. right. apply elem_of_cons. left. reflexivity.
    + apply H5. intros now k v' ttlO Hin.
      repeat (apply elem_of_cons in Hin as [Hin|Hin];
              [injection Hin as -> -> -> ->; reflexivity |]).
      apply elem_of_nil in Hin. destruct Hin.
Defined.

(** ** C2 *)




End EvictionFacts.

(* ===================================================================== *)
(** * The admission controller: bursts, waiting and edge configurations   *)
(* ===================================================================== *)

Module AdmissionFacts.
Import RateLimiter RateLimiterFacts Admission.

(** A request for more tokens than the bucket can hold is never admitted,
    whatever the state and the clock; with [max = 0] nothing is. *)
Theorem oversized_request_rejected (rl : t) (now : Z) (id : string) (n : Q) :
  (max rl < n)%Q →
  ok (snd (tryRemoveToken rl now id n)) = false ∧
  limited (fst (tryRemoveToken rl now id n)) = S (limited rl).
Proof.
  intros Hn. rewrite tryRemoveToken_unfold. cbv zeta.
  set (refilled := spec_refilled _ _ _ _).
  assert (Hle : (refilled <= max rl)%Q) by apply Q.le_min_l.
  destruct (Qle_bool n refilled) eqn:E.
  - apply Qle_bool_iff in E. lra.
  - split; reflexivity.
Qed.

Lemma oversized_request_rejected_witness :
  ok (snd (tryRemoveToken (new 0 1) 1000 "c" 1)) = false ∧
  limited (fst (tryRemoveToken (new 0 1) 1000 "c" 1)) = 1%nat.
Proof.
  apply (oversized_request_rejected (new 0 1) 1000 "c" 1). reflexivity.
Defined.

(** ** Bursts at one clock reading *)

Lemma refilled_same_instant maxT rate tok now :
  (tok <= maxT)%Q →
  (spec_refilled maxT rate tok (elapsedSeconds now now) == tok)%Q.
Proof.
  intros Hle. unfold spec_refilled, elapsedSeconds. rewrite Z.sub_diag.
  assert (E : (tok + inject_Z 0 / 1000 * rate == tok)%Q)
    by (unfold inject_Z; field).
  rewrite E. apply Q.min_r. exact Hle.
Qed.

Lemma Qle_bool_comp (a b b' : Q) : (b == b')%Q → Qle_bool a b = Qle_bool a b'.
Proof.
  intros E. destruct (Qle_bool a b) eqn:H1; destruct (Qle_bool a b') eqn:H2;
    try reflexivity.
  - apply Qle_bool_iff in H1. rewrite E in H1. apply Qle_bool_iff in H1.
    congruence.
  - apply Qle_bool_iff in H2. rewrite <- E in H2. apply Qle_bool_iff in H2.
    congruence.
Qed.

Lemma one_le_inject_Z (z : Z) : (1 <= inject_Z z)%Q ↔ 1 <= z.
Proof. unfold Qle, inject_Z. simpl. lia. Qed.

(** One unit request at the reading [now] against a bucket last refilled
    at [now] and holding [z] whole tokens. *)
Lemma unit_request_same_instant rl now id (z : Z) :
  last (bucket_of rl now id) = now →
  (tokens (bucket_of rl now id) == inject_Z z)%Q →
  (inject_Z z <= max rl)%Q →
  let rl' := fst (tryRemoveToken rl now id 1) in
  let r := snd (tryRemoveToken rl now id 1) in
  let z' := if 1 <=? z then z - 1 else z in
  r = (if 1 <=? z then Result true (z - 1) else Result false (Qfloor (inject_Z z))) ∧
  last (bucket_of rl' now id) = now ∧
  (tokens (bucket_of rl' now id) == inject_Z z')%Q ∧
  max rl' = max rl ∧
  limited rl' = (if 1 <=? z then limited rl else S (limited rl)).
Proof.
  intros Hlast Htok Hmax rl' r z'. subst rl' r.
  rewrite tryRemoveToken_unfold. cbv zeta. rewrite Hlast.
  set (refilled := spec_refilled _ _ _ _).
  assert (Hr : (refilled == inject_Z z)%Q).
  { unfold refilled. rewrite refilled_same_instant; [exact Htok |].
    rewrite Htok. exact Hmax. }
  rewrite (Qle_bool_comp 1 refilled (inject_Z z) Hr).
  destruct (1 <=? z) eqn:Ez.
  - apply Z.leb_le in Ez.
    assert (Hle : Qle_bool 1 (inject_Z z) = true).
    { apply Qle_bool_iff. apply (proj2 (one_le_inject_Z z)). exact Ez. }
    rewrite Hle. cbn [fst snd]. unfold bucket_of. cbn [buckets max limited].
    rewrite lookup_insert_eq. cbn [default last tokens].
    assert (E : (refilled - 1 == inject_Z (z - 1))%Q).
    { rewrite Hr. unfold Z.sub. rewrite inject_Z_plus. reflexivity. }
    repeat split; try reflexivity; [| exact E].
    f_equal. rewrite (Qfloor_comp _ _ E). apply Qfloor_Z.
  - apply Z.leb_gt in Ez.
    assert (Hle : Qle_bool 1 (inject_Z z) = false).
    { destruct (Qle_bool 1 (inject_Z z)) eqn:H; [| reflexivity].
      apply Qle_bool_iff in H. apply (proj1 (one_le_inject_Z z)) in H. lia. }
    rewrite Hle. cbn [fst snd]. unfold bucket_of. cbn [buckets max limited].
    rewrite lookup_insert_eq. cbn [default last tokens].
    repeat split; try reflexivity; [| exact Hr].
    f_equal. apply Qfloor_comp, Hr.
Qed.

Lemma burst_expected_cons z k :
  burst_expected z (S k) =
  (if 1 <=? z then Result true (z - 1) else Result false 0)
    :: burst_expected (if 1 <=? z then z - 1 else Z.min z 0) k.
Proof.
  unfold burst_expected. cbn [seq List.map]. f_equal.
  - change (Z.of_nat 0) with 0. destruct (1 <=? z) eqn:E.
    + apply Z.leb_le in E. rewrite (proj2 (Z.ltb_lt 0 z)) by lia.
      f_equal. lia.
    + apply Z.leb_gt in E. rewrite (proj2 (Z.ltb_ge 0 z)) by lia. reflexivity.
  - rewrite <- seq_shift, List.map_map. apply List.map_ext. intros i.
    destruct (1 <=? z) eqn:E.
    + apply Z.leb_le in E.
      destruct (Z.of_nat i <? z - 1) eqn:E1.
      * apply Z.ltb_lt in E1. rewrite (proj2 (Z.ltb_lt _ _)) by lia.
        f_equal. lia.
      * apply Z.ltb_ge in E1. rewrite (proj2 (Z.ltb_ge _ _)) by lia.
        reflexivity.
    + apply Z.leb_gt in E.
      rewrite (proj2 (Z.ltb_ge (Z.of_nat (S i)) z)) by lia.
      rewrite (proj2 (Z.ltb_ge (Z.of_nat i) (Z.min z 0))) by lia.
      reflexivity.
Qed.

Lemma burst_same_instant k : ∀ rl now id (z : Z),
  0 <= z →
  last (bucket_of rl now id) = now →
  (tokens (bucket_of rl now id) == inject_Z z)%Q →
  (inject_Z z <= max rl)%Q →
  snd (burst k rl now id) = burst_expected z k ∧
  limited (fst (burst k rl now id)) =
    (limited rl + (k - Z.to_nat z))%nat.
Proof.
  induction k as [|k IH]; intros rl now id z Hz Hlast Htok Hmax.
  - split; [reflexivity | simpl; lia].
  - destruct (unit_request_same_instant rl now id z Hlast Htok Hmax)
      as (Hr & Hlast' & Htok' & Hmax' & Hlim').
    cbn [burst].
    destruct (tryRemoveToken rl now id 1) as [rl1 r] eqn:E1.
    cbn [fst snd] in Hr, Hlast', Htok', Hmax', Hlim'.
    destruct (burst k rl1 now id) as [rl2 rs] eqn:E2.
    cbn [fst snd]. rewrite burst_expected_cons.
    destruct (1 <=? z) eqn:Ez.
    + apply Z.leb_le in Ez.
      destruct (IH rl1 now id (z - 1)) as [H1 H2];
        [lia | exact Hlast' | exact Htok' | |].
      { rewrite Hmax'. apply (Qle_trans _ (inject_Z z)); [| exact Hmax].
        rewrite <- Zle_Qle. lia. }
      rewrite E2 in H1, H2. cbn [fst snd] in H1, H2.
      split; [rewrite Hr, H1; reflexivity | rewrite H2, Hlim'; lia].
    + apply Z.leb_gt in Ez. assert (z = 0) by lia. subst z.
      destruct (IH rl1 now id 0) as [H1 H2];
        [lia | exact Hlast' | exact Htok' | rewrite Hmax'; exact Hmax |].
      rewrite E2 in H1, H2. cbn [fst snd] in H1, H2.
      split; [rewrite Hr, H1; reflexivity | rewrite H2, Hlim'; simpl; lia].
Qed.

(** A client seen for the first time, against a limiter of whole capacity
    [M]: of [k] unit requests at one clock reading exactly the first [M]
    are admitted, with [remaining] counting down from [M-1] to [0]; every
    further one is rejected with [remaining = 0] and counted in
    [stats.limited].  The refill rate plays no part. *)
Theorem burst_admits_capacity (rl : t) (now : Z) (id : string) (M k : nat) :
  buckets rl !! id = None →
  (max rl == inject_Z (Z.of_nat M))%Q →
  snd (burst k rl now id) = burst_expected (Z.of_nat M) k ∧
  limited (fst (burst k rl now id)) = (limited rl + (k - M))%nat.
Proof.
  intros Hnew Hmax.
  destruct (burst_same_instant k rl now id (Z.of_nat M)) as [H1 H2].
  - lia.
  - unfold bucket_of. rewrite Hnew. reflexivity.
  - unfold bucket_of. rewrite Hnew. exact Hmax.
  - rewrite Hmax. apply Qle_refl.
  - rewrite Nat2Z.id in H2. split; assumption.
Qed.

(** The scenario of the specification, as an instance: 61 requests in one
    instant against a new bucket of size 60. *)
Lemma burst_admits_capacity_witness :
  snd (burst 61 (new 60 1) 5000 "c") = burst_expected 60 61 ∧
  limited (fst (burst 61 (new 60 1) 5000 "c")) = 1%nat.
Proof.
  apply (burst_admits_capacity (new 60 1) 5000 "c" 60 61).
  - reflexivity.
  - reflexivity.
Defined.

(** ** Waiting for a refill *)



(** ** A refill rate of zero *)

(** With [refillPerSec = 0] waiting adds nothing: whatever the clock
    reading, a bucket within its capacity ends with exactly what it held,
    less the [n] tokens of an admitted request. *)
Theorem zero_refill_never_replenishes (rl : t) (b : bucket) (now : Z)
    (id : string) (n : Q) :
  (refill rl == 0)%Q → buckets rl !! id = Some b → (tokens b <= max rl)%Q →
  ∃ b', buckets (fst (tryRemoveToken rl now id n)) !! id = Some b' ∧
        (tokens b' ==
         if ok (snd (tryRemoveToken rl now id n)) then tokens b - n
         else tokens b)%Q ∧
        (ok (snd (tryRemoveToken rl now id n)) = true ↔ (n <= tokens b)%Q).
Proof.
  intros Hrate Hb Hle. rewrite tryRemoveToken_unfold. cbv zeta.
  unfold bucket_of. rewrite Hb.
  change (default {| tokens := max rl; last := now |} (Some b)) with b.
  set (refilled := spec_refilled _ _ _ _).
  assert (Hr : (refilled == tokens b)%Q).
  { unfold refilled, spec_refilled. rewrite Hrate.
    assert (E : (tokens b + elapsedSeconds now (last b) * 0 == tokens b)%Q)
      by ring.
    rewrite E. apply Q.min_r, Hle. }
  rewrite (Qle_bool_comp n refilled (tokens b) Hr).
  destruct (Qle_bool n (tokens b)) eqn:E; cbn [fst snd ok buckets].
  - eexists. split; [apply lookup_insert_eq |]. cbn [tokens].
    split; [rewrite Hr; reflexivity |].
    apply Qle_bool_iff in E. tauto.
  - eexists. split; [apply lookup_insert_eq |]. cbn [tokens].
    split; [exact Hr |].
    split; [discriminate |]. intros H. apply Qle_bool_iff in H. congruence.
Qed.

(** A quota of two tokens and no refill: an hour after the first request
    the bucket still holds one token less. *)
Lemma zero_refill_never_replenishes_witness :
  let rl := fst (tryRemoveToken (new 2 0) 0 "c" 1) in
  ∃ b b', buckets rl !! "c" = Some b ∧
          buckets (fst (tryRemoveToken rl 3600000 "c" 1)) !! "c" = Some b' ∧
          (tokens b' == tokens b - 1)%Q.
Proof.
  intros rl.
  destruct (zero_refill_never_replenishes rl
              (Bucket (Qmin 2 (2 + inject_Z 0 / 1000 * 0) - 1) 0)
              3600000 "c" 1) as (b' & Hb' & Htok & _).
  - reflexivity.
  - reflexivity.
  - vm_compute. discriminate.
  - eexists _, b'. split; [reflexivity |]. split; [exact Hb' |].
    rewrite Htok. reflexivity.
Defined.

(** ** The bucket map only grows *)

(** [tryRemoveToken] never removes a bucket: afterwards the map holds the
    buckets of the same clients as before and of the caller. *)
Theorem buckets_only_grow (rl : t) (now : Z) (id : string) (n : Q) :
  dom (buckets (fst (tryRemoveToken rl now id n))) = {[id]} ∪ dom (buckets rl).
Proof.
  rewrite tryRemoveToken_unfold. cbv zeta.
  destruct (Qle_bool n _); cbn [fst buckets]; apply dom_insert_L.
Qed.

(** ** Clients are limited independently *)

(** A call for one client leaves the bucket of every other client as it
    was, so the verdict and the remaining count a later call gives another
    client are the same as if the first call had not been made. *)
Theorem clients_do_not_interfere (rl : t) (now now' : Z) (id id' : string)
    (n n' : Q) :
  id ≠ id' →
  buckets (fst (tryRemoveToken rl now id n)) !! id' = buckets rl !! id' ∧
  snd (tryRemoveToken (fst (tryRemoveToken rl now id n)) now' id' n') =
  snd (tryRemoveToken rl now' id' n').
Proof.
  intros Hne.
  assert (Hb : buckets (fst (tryRemoveToken rl now id n)) !! id'
               = buckets rl !! id').
  { rewrite tryRemoveToken_unfold. cbv zeta.
    destruct (Qle_bool n _); cbn [fst buckets];
      apply lookup_insert_ne; exact Hne. }
  assert (Hm : max (fst (tryRemoveToken rl now id n)) = max rl).
  { rewrite tryRemoveToken_unfold. cbv zeta.
    destruct (Qle_bool n _); reflexivity. }
  assert (Hr : refill (fst (tryRemoveToken rl now id n)) = refill rl).
  { rewrite tryRemoveToken_unfold. cbv zeta.
    destruct (Qle_bool n _); reflexivity. }
  split; [exact Hb |].
  rewrite (tryRemoveToken_unfold (fst _)), (tryRemoveToken_unfold rl now').
  cbv zeta. unfold bucket_of. rewrite Hb, Hm, Hr.
  destruct (Qle_bool n' _); reflexivity.
Qed.

Lemma clients_do_not_interfere_witness :
  snd (tryRemoveToken (fst (tryRemoveToken (new 1 0) 0 "key:a" 1)) 5 "ip:b" 1)
  = snd (tryRemoveToken (new 1 0) 5 "ip:b" 1).
Proof.
  apply (clients_do_not_interfere (new 1 0) 0 5 "key:a" "ip:b" 1 1).
  discriminate.
Defined.

End AdmissionFacts.

(* ===================================================================== *)
(** * The response cache: delete, clear, overwrite and the counters       *)
(* ===================================================================== *)

Module StoreFacts.
Import LRU Chain CacheOps CacheFacts EvictionFacts Store.
Module C := TTLCache.

#[local] Arguments TTLCache.set : simpl never.
#[local] Arguments TTLCache.get : simpl never.

Lemma del_unfold c k :
  C.del c k =
  match C.map c !! k with
  | None => (c, false)
  | Some _ => (remove k c, true)
  end.
Proof. reflexivity. Qed.

(** ** The counters through the pointer surgery *)

Lemma st_detach k c : C.st (C._detach k c) = C.st c.
Proof.
  unfold C._detach. cbv zeta.
  destruct (C.get_prev c k); destruct (C.get_next _ k); reflexivity.
Qed.

Lemma st_attach k c : C.st (C._attach k c) = C.st c.
Proof. apply (attach_fields c k). Qed.

Lemma st_moveToFront k c : C.st (C._moveToFront k c) = C.st c.
Proof. apply (moveToFront_fields k c). Qed.

Lemma stores_evict_loop fuel : ∀ c,
  C.stores (C.st (C.evict_loop fuel c)) = C.stores (C.st c).
Proof.
  induction fuel as [|fuel IH]; intros c; [reflexivity |].
  cbn [C.evict_loop]. case_decide; [| reflexivity].
  destruct (C.tail c) as [r|]; [| reflexivity].
  rewrite IH.
  change (C.stores (C.st (C.evict_tail r c)))
    with (C.stores (C.st (C._detach r c))).
  rewrite st_detach. reflexivity.
Qed.

(** [set] counts one store, whatever else it does. *)
Lemma stores_set c now k v ttlO :
  C.stores (C.st (C.set c now k v ttlO)) = S (C.stores (C.st c)).
Proof.
  unfold C.set. cbv zeta. destruct (C.map c !! k).
  - cbn [C.incr_stores C.set_st C.st C.stores]. rewrite st_moveToFront.
    reflexivity.
  - cbn [C.incr_stores C.set_st C.st C.stores]. unfold C._evictIfNeeded.
    rewrite stores_evict_loop, st_attach. reflexivity.
Qed.

(** [get] counts no store. *)
Lemma stores_get c now k :
  C.stores (C.st (fst (C.get c now k))) = C.stores (C.st c).
Proof.
  unfold C.get. destruct (C.map c !! k) as [n|]; [| reflexivity].
  destruct (C._isExpired now n); cbn [fst].
  - change (C.stores (C.st (C._detach k c)) = C.stores (C.st c)).
    rewrite st_detach. reflexivity.
  - cbn [C.incr_hits C.set_st C.st C.stores]. rewrite st_moveToFront.
    reflexivity.
Qed.

Lemma stores_del c k : C.st (fst (C.del c k)) = C.st c.
Proof.
  rewrite del_unfold. destruct (C.map c !! k); [| reflexivity].
  cbn [fst]. change (C.st (remove k c)) with (C.st (C._detach k c)).
  apply st_detach.
Qed.


(** ** [del] *)

Lemma del_wf c k : wf c → wf (fst (C.del c k)).
Proof.
  intros Hc. pose proof Hc as (l & Hl & Hlen). rewrite del_unfold.
  destruct (C.map c !! k) as [n|] eqn:Hk; cbn [fst]; [| exact Hc].
  assert (Hin : k ∈ l) by (apply (linked_elem c l k Hl); eauto).
  destruct (linked_remove c l k Hl Hin) as (Hl' & _ & _ & Hmax).
  exists (unlink k l). split; [exact Hl' |]. rewrite Hmax.
  pose proof (length_unlink_le k l). lia.
Qed.

Lemma clear_wf c : wf (C.clear c).
Proof.
  exists []. split; [| simpl; lia]. split.
  - split; [constructor |]. split; [reflexivity |]. split; [reflexivity |].
    intros [|? ?] ? ? ?; discriminate.
  - intros k [n Hn]. cbn in Hn. rewrite lookup_empty in Hn. discriminate.
Qed.

Lemma del_spec (c : C.t) (k : string) :
  wf c →
  let c' := fst (C.del c k) in
  snd (C.del c k) = bool_decide (is_Some (entries c !! k)) ∧
  entries c' = delete k (entries c) ∧
  order c' = unlink k (order c) ∧
  C.st c' = C.st c ∧
  wf c'.
Proof.
  intros Hc c'. subst c'. pose proof Hc as (l & Hl & Hlen).
  rewrite (order_linked c l Hl), del_unfold, entries_lookup.
  destruct (C.map c !! k) as [n|] eqn:Hk; cbn [fst snd fmap option_fmap option_map].
  - assert (Hin : k ∈ l) by (apply (linked_elem c l k Hl); eauto).
    destruct (linked_remove c l k Hl Hin) as (Hl' & Hst & Httl & Hmax).
    split; [symmetry; apply bool_decide_eq_true_2; eauto |].
    split; [apply entries_remove |].
    split; [apply order_linked, Hl' |]. split; [exact Hst |].
    pose proof (del_wf c k Hc) as Hw. rewrite del_unfold, Hk in Hw. exact Hw.
  - split; [symmetry; apply bool_decide_eq_false_2; intros [? ?]; discriminate |].
    assert (Hnone : entries c !! k = None) by (rewrite entries_lookup, Hk; reflexivity).
    split; [rewrite delete_id by exact Hnone; reflexivity |].
    split.
    + rewrite (order_linked c l Hl). symmetry. apply unlink_notin.
      intros Hin. apply (linked_elem c l k Hl) in Hin as [? ?]. congruence.
    + split; [reflexivity | exact Hc].
Qed.

(** [del(k)] returns [true] exactly when an entry is stored under [k],
    expired or not; it removes that entry from the map and from the recency
    list, keeps every other entry and the order of the other keys, touches
    no counter, and keeps the structure well formed. *)
Theorem del_removes_entry (c : C.t) (k : string) :
  wf c →
  let c' := fst (C.del c k) in
  snd (C.del c k) = bool_decide (is_Some (entries c !! k)) ∧
  entries c' = delete k (entries c) ∧
  order c' = unlink k (order c) ∧
  C.st c' = C.st c ∧
  wf c'.
Proof. apply del_spec. Qed.

Lemma del_removes_entry_witness :
  let v := C.Value 200 [] "ok" in
  let c := run (C.new 10 2) [OpSet 0 "a" v None; OpSet 1 "b" v None] in
  snd (C.del c "a") = true ∧
  entries (fst (C.del c "a")) !! "a" = None ∧
  order (fst (C.del c "a")) = ["b"] ∧
  wf (fst (C.del c "a")).
Proof.
  intros v c.
  destruct (del_removes_entry c "a") as (H1 & H2 & H3 & _ & H5).
  - apply run_wf, new_wf.
  - split; [rewrite H1; vm_compute; reflexivity |].
    split; [rewrite H2; apply lookup_delete_eq |].
    split; [rewrite H3; vm_compute; reflexivity | exact H5].
Defined.

(** ** [clear] *)

(** [clear()] empties the map and the recency list of any cache, and
    leaves the counters and the configuration as they were: the counters
    are not reset. *)
Theorem clear_empties (c : C.t) :
  let c' := C.clear c in
  C.map c' = ∅ ∧ order c' = [] ∧ C.snap_size (C.snapshot c') = 0%nat ∧
  C.st c' = C.st c ∧ C.ttlMs c' = C.ttlMs c ∧
  C.maxEntries c' = C.maxEntries c ∧
  wf c' ∧
  ∀ now k, snd (C.get c' now k) = None.
Proof.
  intros c'. subst c'.
  assert (Hm : C.map (C.clear c) = ∅) by reflexivity.
  split; [exact Hm |].
  split; [unfold order; rewrite Hm; reflexivity |].
  split; [unfold C.snapshot; cbn [C.snap_size]; rewrite Hm; apply map_size_empty |].
  split; [reflexivity |]. split; [reflexivity |]. split; [reflexivity |].
  split; [apply clear_wf |].
  intros now k. rewrite get_unknown; [reflexivity |].
    rewrite Hm. apply lookup_empty.
Qed.

(** ** Every operation keeps the structure *)

Lemma apply_wf c o : wf c → wf (apply c o).
Proof.
  intros Hc. destruct o as [now k | now k v ttl | k |]; cbn [apply].
  - apply get_wf, Hc.
  - apply set_wf, Hc.
  - apply del_wf, Hc.
  - apply clear_wf.
Qed.

Lemma exec_wf calls : ∀ c, wf c → wf (exec c calls).
Proof.
  induction calls as [|o calls IH]; intros c Hc; [exact Hc |].
  apply IH, apply_wf, Hc.
Qed.

Lemma apply_maxEntries c o : wf c → C.maxEntries (apply c o) = C.maxEntries c.
Proof.
  intros (l & Hl & _). destruct o as [now k | now k v ttlO | k |]; cbn [apply].
  - apply (get_spec c l now k Hl).
  - apply (set_spec c l now k v ttlO Hl).
  - rewrite del_unfold. destruct (C.map c !! k) as [n|] eqn:Hk; [| reflexivity].
    assert (Hin : k ∈ l) by (apply (linked_elem c l k Hl); eauto).
    apply (linked_remove c l k Hl Hin).
  - reflexivity.
Qed.

Lemma exec_maxEntries calls : ∀ c,
  wf c → C.maxEntries (exec c calls) = C.maxEntries c.
Proof.
  induction calls as [|o calls IH]; intros c Hc; [reflexivity |].
  cbn [exec foldl]. change (foldl apply (apply c o) calls)
    with (exec (apply c o) calls).
  rewrite (IH _ (apply_wf c o Hc)). apply apply_maxEntries, Hc.
Qed.

Lemma cache_structure_bound ttl mx calls :
  (size (C.map (exec (C.new ttl mx) calls)) ≤ Z.to_nat mx)%nat.
Proof.
  pose proof (exec_wf calls _ (new_wf ttl mx)) as Hc.
  pose proof (wf_size _ Hc) as Hs.
  rewrite (exec_maxEntries calls _ (new_wf ttl mx)) in Hs. exact Hs.
Qed.

(** After any sequence of [get], [set], [del] and [clear] on a new cache
    the map and the doubly linked list agree: the keys reached from
    [head] through [next] are the keys of the map, each once; [head] and
    [tail] are the two ends; every node's [prev] and [next] are its
    neighbours in that list; and the map holds at most [maxEntries]
    entries (none when [maxEntries] is not positive). *)
Theorem cache_structure_invariant (ttl mx : Z) (calls : list call) :
  let c := exec (C.new ttl mx) calls in
  NoDup (order c) ∧
  dom (C.map c) = list_to_set (order c) ∧
  C.head c = head (order c) ∧
  C.tail c = last (order c) ∧
  (∀ l1 k l2, order c = l1 ++ k :: l2 →
     ∃ n, C.map c !! k = Some n ∧
          C.prev n = last l1 ∧ C.next n = head l2) ∧
  (size (C.map c) ≤ Z.to_nat mx)%nat.
Proof.
  intros c.
  assert (Hc : wf c) by (apply exec_wf, new_wf).
  pose proof (wf_order c Hc) as Hl. pose proof Hl as [(Hnd & Hh & Ht & Hn) Hdom].
  split; [exact Hnd |]. split; [| split; [exact Hh | split; [exact Ht | split; [exact Hn |]]]].
  - apply set_eq. intros k. rewrite elem_of_dom, elem_of_list_to_set.
    symmetry. apply (linked_elem c _ k Hl).
  - apply cache_structure_bound.
Qed.

(** ** Overwrites and hits *)

(** [set] of a key that is already stored, expired or not, replaces its
    value and expiry, makes it the most recently used key, evicts
    nothing and leaves every other entry as it was. *)
Theorem set_overwrites (c : C.t) (now : Z) (k : string) (v : C.value)
    (ttlO : option Z) :
  wf c → is_Some (entries c !! k) →
  let c' := C.set c now k v ttlO in
  entries c' = <[k := (v, expiry_of (C.ttlMs c) now ttlO)]> (entries c) ∧
  order c' = touch k (order c) ∧
  size (C.map c') = size (C.map c) ∧
  C.st c' = stored (C.st c) 0.
Proof.
  intros Hc Hk c'. subst c'. pose proof (wf_order c Hc) as Hl.
  destruct (set_spec c _ now k v ttlO Hl) as (Hcase & _).
  rewrite decide_True in Hcase by (apply (elem_of_order c k Hc), Hk).
  destruct Hcase as (Hl' & He & Hst).
  split; [exact He |]. split; [apply order_linked, Hl' |].
  split; [| exact Hst].
  rewrite (linked_size _ _ Hl'), (linked_size _ _ Hl).
  apply length_touch; [apply (linked_NoDup c _ Hl) |].
  apply (elem_of_order c k Hc), Hk.
Qed.

Lemma set_overwrites_witness :
  let v := C.Value 200 [] "old" in
  let v' := C.Value 201 [] "new" in
  let c := run (C.new 10 2) [OpSet 0 "a" v None; OpSet 1 "b" v None] in
  entries (C.set c 5 "a" v' (Some 7)) !! "a" = Some (v', 12) ∧
  order (C.set c 5 "a" v' (Some 7)) = ["a"; "b"] ∧
  C.evictions (C.st (C.set c 5 "a" v' (Some 7))) = 0%nat.
Proof.
  intros v v' c.
  destruct (set_overwrites c 5 "a" v' (Some 7)) as (H1 & H2 & _ & H4).
  - apply run_wf, new_wf.
  - eexists. vm_compute. reflexivity.
  - split; [rewrite H1; apply lookup_insert_eq |].
    split; [rewrite H2; vm_compute; reflexivity |].
    rewrite H4. vm_compute. reflexivity.
Defined.

(** A [get] of a stored, unexpired key returns its value, makes it the
    most recently used key and counts one hit; no entry changes. *)
Theorem get_hit_refreshes_recency (c : C.t) (now : Z) (k : string)
    (v : C.value) (e : Z) :
  wf c → entries c !! k = Some (v, e) → now < e →
  let c' := fst (C.get c now k) in
  snd (C.get c now k) = Some v ∧
  order c' = touch k (order c) ∧
  entries c' = entries c ∧
  C.st c' = hit (C.st c).
Proof.
  intros Hc Hk Hnow c'. subst c'. pose proof (wf_order c Hc) as Hl.
  destruct (get_spec c _ now k Hl) as (Hcase & _). rewrite Hk in Hcase.
  rewrite bool_decide_eq_false_2 in Hcase by lia.
  destruct Hcase as (Hr & Hl' & He & Hst).
  split; [exact Hr |]. split; [apply order_linked, Hl' |].
  split; assumption.
Qed.

Lemma get_hit_refreshes_recency_witness :
  let v := C.Value 200 [] "ok" in
  let c := run (C.new 10 2) [OpSet 0 "a" v None; OpSet 1 "b" v None] in
  snd (C.get c 5 "a") = Some v ∧ order (fst (C.get c 5 "a")) = ["a"; "b"].
Proof.
  intros v c.
  destruct (get_hit_refreshes_recency c 5 "a" v 10) as (H1 & H2 & _).
  - apply run_wf, new_wf.
  - vm_compute. reflexivity.
  - reflexivity.
  - split; [exact H1 | rewrite H2; vm_compute; reflexivity].
Defined.

(** ** Evictions *)

(** A [set] evicts at most one entry, and it evicts one exactly when the
    key is new and the cache already holds [maxEntries] entries. *)
Theorem set_evicts_only_when_full (c : C.t) (now : Z) (k : string)
    (v : C.value) (ttlO : option Z) :
  wf c →
  C.evictions (C.st (C.set c now k v ttlO)) =
  (C.evictions (C.st c) +
   if bool_decide (entries c !! k = None ∧
                   size (C.map c) = Z.to_nat (C.maxEntries c))
   then 1 else 0)%nat.
Proof.
  intros Hc. pose proof (wf_order c Hc) as Hl.
  pose proof (wf_size c Hc) as Hs.
  destruct (set_spec c _ now k v ttlO Hl) as (Hcase & _).
  rewrite (linked_size c _ Hl) in Hs |- *.
  destruct (decide (k ∈ order c)) as [Hin|Hnin].
  - destruct Hcase as (_ & _ & ->). cbn.
    rewrite bool_decide_eq_false_2; [reflexivity |].
    intros [Hnone _]. apply (elem_of_order c k Hc) in Hin.
    rewrite Hnone in Hin. destruct Hin; discriminate.
  - destruct Hcase as (_ & _ & ->). cbn [stored C.evictions length].
    assert (Hnone : entries c !! k = None).
    { destruct (entries c !! k) eqn:E; [| reflexivity].
      exfalso. apply Hnin, (elem_of_order c k Hc). eauto. }
    case_bool_decide as Hb.
    + destruct Hb as [_ Hb]. f_equal. lia.
    + f_equal. assert (length (order c) ≠ Z.to_nat (C.maxEntries c)) by tauto.
      lia.
Qed.

Lemma set_evicts_only_when_full_witness :
  let v := C.Value 200 [] "ok" in
  let c := run (C.new 10 2) [OpSet 0 "a" v None; OpSet 1 "b" v None] in
  C.evictions (C.st (C.set c 2 "c" v None)) = 1%nat ∧
  C.evictions (C.st (C.set c 2 "a" v None)) = 0%nat.
Proof.
  intros v c. split.
  - rewrite (set_evicts_only_when_full c 2 "c" v None); [| apply run_wf, new_wf].
    vm_compute. reflexivity.
  - rewrite (set_evicts_only_when_full c 2 "a" v None); [| apply run_wf, new_wf].
    vm_compute. reflexivity.
Defined.

(** With [maxEntries <= 0] the cache retains nothing: every [set] is
    evicted before it returns, and every [get] misses. *)
Theorem no_capacity_stores_nothing (ttl mx : Z) (calls : list call) :
  mx <= 0 →
  let c := exec (C.new ttl mx) calls in
  C.map c = ∅ ∧ ∀ now k, snd (C.get c now k) = None.
Proof.
  intros Hmx c.
  assert (Hc : wf c) by (apply exec_wf, new_wf).
  pose proof (cache_structure_bound ttl mx calls) as Hs. fold c in Hs.
  assert (Hm : C.map c = ∅).
  { apply map_size_empty_iff. lia. }
  split; [exact Hm |]. intros now k.
  rewrite get_unknown; [reflexivity | rewrite Hm; apply lookup_empty].
Qed.

Lemma no_capacity_stores_nothing_witness :
  let c := exec (C.new 60000 0) [Put 0 "a" (C.Value 200 [] "ok") None] in
  C.map c = ∅ ∧ ∀ now k, snd (C.get c now k) = None.
Proof.
  apply (no_capacity_stores_nothing 60000 0). lia.
Defined.

(** ** The counters *)

Lemma apply_stats c o :
  wf c →
  let s := C.st c in
  let s' := C.st (apply c o) in
  (C.hits s' + C.misses s' =
     C.hits s + C.misses s + (if is_get o then 1 else 0))%nat ∧
  C.stores s' = (C.stores s + (if is_put o then 1 else 0))%nat ∧
  (C.evictions s ≤ C.evictions s')%nat ∧
  (C.evictions s' - C.evictions s ≤ if is_put o then 1 else 0)%nat.
Proof.
  intros Hc s s'. subst s s'. pose proof Hc as (l & Hl & Hlen).
  destruct o as [now k | now k v ttlO | k |]; cbn [apply is_get is_put].
  - destruct (get_spec c l now k Hl) as (Hcase & _).
    destruct (entries c !! k) as [[v e]|];
      [destruct (bool_decide (e <= now)) |];
      destruct Hcase as (_ & _ & _ & ->); cbn; lia.
  - destruct (set_spec c l now k v ttlO Hl) as (Hcase & _).
    destruct (decide (k ∈ l)); destruct Hcase as (_ & _ & ->);
      cbn [stored C.hits C.misses C.stores C.evictions length]; lia.
  - rewrite del_unfold. destruct (C.map c !! k) as [n|] eqn:Hk; cbn [fst].
    + assert (Hin : k ∈ l) by (apply (linked_elem c l k Hl); eauto).
      destruct (linked_remove c l k Hl Hin) as (_ & -> & _). lia.
    + lia.
  - change (C.st (C.clear c)) with (C.st c). lia.
Qed.

Lemma exec_stats calls : ∀ c,
  wf c →
  let s := C.st c in
  let s' := C.st (exec c calls) in
  (C.hits s' + C.misses s' =
     C.hits s + C.misses s + length (List.filter is_get calls))%nat ∧
  C.stores s' = (C.stores s + length (List.filter is_put calls))%nat ∧
  (C.evictions s ≤ C.evictions s')%nat ∧
  (C.evictions s' - C.evictions s ≤ length (List.filter is_put calls))%nat.
Proof.
  induction calls as [|o calls IH]; intros c Hc.
  - cbn. lia.
  - cbn [exec foldl List.filter].
    change (foldl apply (apply c o) calls) with (exec (apply c o) calls).
    destruct (IH (apply c o) (apply_wf c o Hc)) as (H1 & H2 & H3 & H4).
    destruct (apply_stats c o Hc) as (G1 & G2 & G3 & G4).
    cbv zeta in *.
    destruct o as [now k | now k v ttlO | k |]; cbn [is_get is_put length] in *; lia.
Qed.

(** The counters of a cache account for its use: after any sequence of
    operations on a new cache, [hits + misses] is the number of [get]
    calls, [stores] is the number of [set] calls, and there are no more
    evictions than stores; [del] and [clear] change no counter. *)
Theorem counters_account_for_calls (ttl mx : Z) (calls : list call) :
  let s := C.st (exec (C.new ttl mx) calls) in
  (C.hits s + C.misses s)%nat = length (List.filter is_get calls) ∧
  C.stores s = length (List.filter is_put calls) ∧
  (C.evictions s ≤ C.stores s)%nat.
Proof.
  intros s. subst s.
  destruct (exec_stats calls (C.new ttl mx) (new_wf ttl mx)) as (H1 & H2 & H3 & H4).
  cbv zeta in *. cbn [C.new C.st C.hits C.misses C.stores C.evictions] in *.
  lia.
Qed.

End StoreFacts.

(* ===================================================================== *)
(** * The request handler (server.js)                                     *)
(* ===================================================================== *)

Module HandlerFacts.
Import Utils Server.
Module C := TTLCache.
Module R := RateLimiter.

#[local] Arguments TTLCache.set : simpl never.
#[local] Arguments TTLCache.get : simpl never.
#[local] Arguments RateLimiter.tryRemoveToken : simpl never.
#[local] Arguments cacheKey : simpl never.
#[local] Arguments upstream_request : simpl never.
#[local] Arguments pickClientId : simpl never.
#[local] Arguments bypass : simpl never.
#[local] Arguments shouldCache : simpl never.
#[local] Arguments respHeaders : simpl never.
#[local] Arguments setHeaders : simpl never.
#[local] Arguments metrics_text : simpl never.
#[local] Arguments pretty : simpl never.

(** ** The routes *)

Lemma handle_v1 P cfg w s req :
  String.prefix "/v1/" (path req) = true →
  handle P cfg w s req = pipeline P cfg w (with_cnt begin_request s) req.
Proof.
  intros Hp. unfold handle.
  destruct (String.eqb (path req) "/healthz") eqn:E1.
  { apply String.eqb_eq in E1. rewrite E1 in Hp. discriminate. }
  destruct (String.eqb (path req) "/metrics") eqn:E2.
  { apply String.eqb_eq in E2. rewrite E2 in Hp. discriminate. }
  destruct (String.eqb (path req) "/admin/cache/purge") eqn:E3.
  { apply String.eqb_eq in E3. rewrite E3 in Hp. discriminate. }
  cbn [andb]. rewrite Hp. reflexivity.
Qed.

(** ** The branches of the pipeline *)

Lemma pipeline_rejected P cfg w s req :
  admitted P w s req = false →
  pipeline P cfg w s req =
  {| o_state := with_cnt end_request
                  (with_cnt incr_rate_limited
                     (with_limiter (limiter_after P w s req) s));
     o_response :=
       {| r_status := 429;
          r_headers := setHeader "content-type" "application/json; charset=utf-8"
                         (setHeader "retry-after" "1" (rate_header P w s req));
          r_body := error_body [("error", "rate_limited");
                                ("message", "Too Many Requests")] |};
     o_fetches := [] |}.
Proof.
  unfold admitted, pipeline, limiter_after, rate_header. intros Hok.
  destruct (R.tryRemoveToken _ _ _ _) as [lim rl]. cbn [fst snd] in *.
  rewrite Hok. reflexivity.
Qed.

Lemma pipeline_bypass P cfg w s req :
  admitted P w s req = true → bypass P req = true →
  pipeline P cfg w s req =
  forward P cfg w
    (with_cnt incr_cache_bypass (with_limiter (limiter_after P w s req) s)) req
    (setHeader "x-cache"
       (if cacheInvalidate req then "bypass-invalidate" else "bypass")
       (rate_header P w s req))
    (cacheKey P cfg req).
Proof.
  unfold admitted, pipeline, limiter_after, rate_header. intros Hok Hb.
  destruct (R.tryRemoveToken _ _ _ _) as [lim rl]. cbn [fst snd] in *.
  rewrite Hok, Hb. reflexivity.
Qed.

Lemma pipeline_lookup P cfg w s req :
  admitted P w s req = true → bypass P req = false →
  pipeline P cfg w s req =
  let s1 := with_cache (fst (C.get (cache s) (t_get w) (cacheKey P cfg req)))
              (with_limiter (limiter_after P w s req) s) in
  match cached P cfg w s req with
  | Some v =>
      {| o_state := with_cnt end_request (with_cnt incr_cache_hits s1);
         o_response :=
           {| r_status := C.status v;
              r_headers := setHeaders (C.headers v)
                             (setHeader "x-cache" "hit" (rate_header P w s req));
              r_body := Raw (C.body v) |};
         o_fetches := [] |}
  | None =>
      forward P cfg w (with_cnt incr_cache_misses s1) req
        (setHeader "x-cache" "miss" (rate_header P w s req))
        (cacheKey P cfg req)
  end.
Proof.
  unfold admitted, pipeline, limiter_after, rate_header, cached. intros Hok Hb.
  destruct (R.tryRemoveToken _ _ _ _) as [lim rl]. cbn [fst snd] in *.
  rewrite Hok, Hb. cbn [negb limiter cache with_limiter].
  destruct (C.get _ _ _) as [c [v|]]; reflexivity.
Qed.

Lemma forward_cases P cfg w s req h key :
  forward P cfg w s req h key =
  match fetch w (upstream_request P cfg req) with
  | FetchFailed =>
      {| o_state := with_cnt end_request (with_cnt incr_upstream_errors s);
         o_response :=
           {| r_status := 502;
              r_headers := setHeader "content-type"
                             "application/json; charset=utf-8" h;
              r_body := error_body [("error", "bad_gateway");
                                    ("message", "Upstream fetch failed")] |};
         o_fetches := [upstream_request P cfg req] |}
  | FetchOk status hdrs payload =>
      {| o_state :=
           if shouldCache P cfg req status then
             with_cnt incr_cache_stores
               (with_cache
                  (C.set (cache s) (t_set w) key
                     (C.Value status (map_to_list (respHeaders hdrs h)) payload)
                     None) s)
           else s;
         o_response :=
           {| r_status := status;
              r_headers := setHeaders (map_to_list (respHeaders hdrs h)) h;
              r_body := Raw payload |};
         o_fetches := [upstream_request P cfg req] |}
  end.
Proof. unfold forward. destruct (fetch w _); reflexivity. Qed.

Lemma shouldCache_bypass P cfg req status :
  bypass P req = true → shouldCache P cfg req status = false.
Proof. intros H. unfold shouldCache. rewrite H. reflexivity. Qed.

(** ** Rejection by the limiter *)

(** A [/v1/] request that the limiter rejects is answered 429 with
    [retry-after: 1] and the remaining token count; it is counted in
    [rate_limited], calls no upstream, and neither reads nor writes the
    cache. *)
Theorem rejected_request_stops_early (P : platform) (cfg : config)
    (w : world) (s : state) (req : request) :
  String.prefix "/v1/" (path req) = true → admitted P w s req = false →
  let o := handle P cfg w s req in
  r_status (o_response o) = 429 ∧
  r_headers (o_response o) !! "retry-after" = Some "1" ∧
  r_headers (o_response o) !! "x-rate-remaining" =
    Some (pretty (R.remaining
            (snd (R.tryRemoveToken (limiter s) (t_limiter w)
                    (pickClientId P (headers req) (remoteAddress req)) 1)))) ∧
  o_fetches o = [] ∧
  cache (o_state o) = cache s ∧
  rate_limited (cnt (o_state o)) = S (rate_limited (cnt s)) ∧
  R.limited (limiter (o_state o)) = S (R.limited (limiter s)).
Proof.
  intros Hp Hrej o. subst o. rewrite (handle_v1 P cfg w s req Hp).
  rewrite pipeline_rejected by exact Hrej.
  cbn [o_response o_state o_fetches r_status r_headers cache cnt limiter
       with_cnt with_limiter rate_limited incr_rate_limited end_request
       begin_request].
  unfold setHeader, rate_header, setHeader.
  split; [reflexivity |].
  split; [rewrite lookup_insert_ne by discriminate; apply lookup_insert_eq |].
  split; [rewrite !lookup_insert_ne by discriminate; apply lookup_insert_eq |].
  split; [reflexivity |]. split; [reflexivity |]. split; [reflexivity |].
  unfold limiter_after. cbn [limiter with_cnt].
  unfold admitted in Hrej. revert Hrej.
  rewrite RateLimiterFacts.tryRemoveToken_unfold. cbv zeta.
  destruct (Qle_bool _ _); cbn [fst snd R.ok R.limited];
    [discriminate | reflexivity].
Qed.

(** A limiter with no capacity rejects the first request. *)
Lemma rejected_request_stops_early_witness :
  let s := {| cnt := Counters 0 0 0 0 0 0 0 0; cache := C.new 60000 500;
              limiter := R.new 0 1 |} in
  let o := handle (example_platform (λ _, None)) example_config
             (example_world FetchFailed) s (example_request "POST" ∅) in
  r_status (o_response o) = 429 ∧ o_fetches o = [] ∧
  cache (o_state o) = cache s.
Proof.
  intros s o.
  destruct (rejected_request_stops_early (example_platform (λ _, None))
              example_config (example_world FetchFailed) s
              (example_request "POST" ∅)) as (H1 & _ & _ & H4 & H5 & _).
  - reflexivity.
  - reflexivity.
  - split; [exact H1 |]. split; [exact H4 | exact H5].
Defined.

(** ** Response headers *)

Lemma setHeaders_lookup entries : ∀ h,
  NoDup (fst <$> entries) →
  setHeaders entries h = list_to_map entries ∪ h.
Proof.
  unfold setHeaders.
  induction entries as [|[k v] entries IH]; intros h Hnd.
  - cbn. rewrite (left_id_L ∅ (∪)). reflexivity.
  - rewrite fmap_cons in Hnd. apply NoDup_cons in Hnd as [Hk Hnd].
    cbn [foldl fst snd list_to_map foldr]. rewrite (IH _ Hnd).
    unfold setHeader. apply map_eq. intros x.
    rewrite !lookup_union. destruct (decide (x = k)) as [->|Hne].
    + rewrite !lookup_insert_eq.
      rewrite (not_elem_of_list_to_map_1 _ _ Hk).
      destruct (h !! k); reflexivity.
    + rewrite !lookup_insert_ne by congruence. reflexivity.
Qed.

Lemma setHeaders_map_to_list (m h : gmap string string) :
  setHeaders (map_to_list m) h = m ∪ h.
Proof.
  rewrite setHeaders_lookup by apply NoDup_fst_map_to_list.
  rewrite list_to_map_to_list. reflexivity.
Qed.

Lemma respHeaders_x_cache hdrs h v :
  h !! "x-cache" = Some v → v ≠ "" →
  respHeaders hdrs h !! "x-cache" = Some v.
Proof.
  intros Hv Hne. unfold respHeaders. rewrite lookup_insert_eq, Hv.
  unfold or_else. destruct (String.eqb v "") eqn:E; [| reflexivity].
  apply String.eqb_eq in E. contradiction.
Qed.

(** ** Bypass *)


(** A [/v1/] request that bypasses the cache, by the invalidation header
    or by streaming, leaves the cache exactly as it was: no lookup, no
    store, no purge, no change of recency or of the cache's counters.  If
    the limiter admits it, the upstream is called exactly once and the
    request is counted in [cache_bypass]; a response from the upstream is
    relayed with the [x-cache] value bypass-invalidate or bypass. *)
Theorem bypass_never_touches_cache (P : platform) (cfg : config) (w : world)
    (s : state) (req : request) :
  String.prefix "/v1/" (path req) = true → bypass P req = true →
  let o := handle P cfg w s req in
  cache (o_state o) = cache s ∧
  cache_stores (cnt (o_state o)) = cache_stores (cnt s) ∧
  o_fetches o =
    (if admitted P w s req then [upstream_request P cfg req] else []) ∧
  (admitted P w s req = true →
     cache_bypass (cnt (o_state o)) = S (cache_bypass (cnt s)) ∧
     ∀ status hdrs payload,
       fetch w (upstream_request P cfg req) = FetchOk status hdrs payload →
       r_status (o_response o) = status ∧
       r_body (o_response o) = Raw payload ∧
       r_headers (o_response o) !! "x-cache" =
         Some (if cacheInvalidate req then "bypass-invalidate" else "bypass")).
Proof.
  intros Hp Hb o. subst o. rewrite (handle_v1 P cfg w s req Hp).
  change (admitted P w s req) with (admitted P w (with_cnt begin_request s) req).
  destruct (admitted P w (with_cnt begin_request s) req) eqn:Ha.
  - rewrite (pipeline_bypass _ _ _ _ _ Ha Hb), forward_cases.
    destruct (fetch w (upstream_request P cfg req)) as [|status hdrs payload] eqn:Ef.
    + cbn. split; [reflexivity |]. split; [reflexivity |].
      split; [reflexivity |]. intros _. split; [reflexivity |].
      intros ? ? ? [=].
    + rewrite (shouldCache_bypass P cfg req status Hb).
      cbn [o_state o_response o_fetches cache cnt with_cnt with_limiter
           cache_stores cache_bypass incr_cache_bypass begin_request
           r_status r_body r_headers].
      split; [reflexivity |]. split; [reflexivity |]. split; [reflexivity |].
      intros _. split; [reflexivity |].
      intros status' hdrs' payload' [= <- <- <-].
      split; [reflexivity |]. split; [reflexivity |].
      rewrite setHeaders_map_to_list, lookup_union.
      rewrite (respHeaders_x_cache hdrs _
                 (if cacheInvalidate req then "bypass-invalidate" else "bypass")).
      * reflexivity.
      * apply lookup_insert_eq.
      * destruct (cacheInvalidate req); discriminate.
  - rewrite (pipeline_rejected _ _ _ _ _ Ha). cbn.
    split; [reflexivity |]. split; [reflexivity |].
    split; [reflexivity | discriminate].
Qed.

(** A request with [x-cache-invalidate: TRUE] against a cache that
    already holds an entry. *)
Lemma bypass_never_touches_cache_witness :
  let s := with_cache (C.set (C.new 60000 500) 0 "k" (C.Value 200 [] "old") None)
             example_state in
  let req := example_request "POST" {[ "x-cache-invalidate" := "TRUE" ]} in
  let o := handle (example_platform (λ _, None)) example_config
             (example_world (FetchOk 200 ∅ "fresh")) s req in
  cache (o_state o) = cache s ∧
  length (o_fetches o) = 1%nat ∧
  r_headers (o_response o) !! "x-cache" = Some "bypass-invalidate".
Proof.
  intros s req o.
  destruct (bypass_never_touches_cache (example_platform (λ _, None))
              example_config (example_world (FetchOk 200 ∅ "fresh")) s req)
    as (H1 & _ & H3 & H4).
  - reflexivity.
  - reflexivity.
  - split; [exact H1 |]. split; [fold o in H3; rewrite H3; reflexivity |].
    destruct (H4 eq_refl) as (_ & H5).
    apply (H5 200 ∅ "fresh" eq_refl).
Defined.

(** ** Upstream failure *)



(** ** Cache hits *)

(** An admitted [/v1/] request that does not bypass and whose key is live
    in the cache is answered from the cache: stored status and body, the
    stored headers set over [x-cache: hit] and the rate header, no call of
    [fetch], one more [cache_hits], and [in_flight] back to its value. *)
Theorem cache_hit_skips_upstream (P : platform) (cfg : config) (w : world)
    (s : state) (req : request) (v : C.value) :
  String.prefix "/v1/" (path req) = true → admitted P w s req = true →
  bypass P req = false → cached P cfg w s req = Some v →
  let o := handle P cfg w s req in
  o_fetches o = [] ∧
  r_status (o_response o) = C.status v ∧
  r_body (o_response o) = Raw (C.body v) ∧
  r_headers (o_response o) =
    setHeaders (C.headers v)
      (setHeader "x-cache" "hit" (rate_header P w s req)) ∧
  cache_hits (cnt (o_state o)) = S (cache_hits (cnt s)) ∧
  in_flight (cnt (o_state o)) = in_flight (cnt s).
Proof.
  intros Hp Ha Hb Hhit o. subst o. rewrite (handle_v1 P cfg w s req Hp).
  change (admitted P w s req) with (admitted P w (with_cnt begin_request s) req) in Ha.
  change (cached P cfg w s req)
    with (cached P cfg w (with_cnt begin_request s) req) in Hhit.
  rewrite (pipeline_lookup _ _ _ _ _ Ha Hb). cbv zeta. rewrite Hhit.
  cbn [o_state o_response o_fetches cache cnt with_cnt with_limiter with_cache
       r_status r_body r_headers cache_hits in_flight
       incr_cache_hits end_request begin_request].
  repeat (split; [reflexivity |]). lia.
Qed.

Lemma cache_hit_skips_upstream_witness :
  let v := C.Value 200 [("content-type", "text/plain")] "stored" in
  let req := example_request "POST" ∅ in
  let P := example_platform (λ _, None) in
  let s := with_cache (C.set (C.new 60000 500) 0 (cacheKey P example_config req)
                         v None) example_state in
  let o := handle P example_config (example_world FetchFailed) s req in
  o_fetches o = [] ∧ r_status (o_response o) = 200 ∧
  r_body (o_response o) = Raw "stored".
Proof.
  intros v req P s o.
  destruct (cache_hit_skips_upstream P example_config
              (example_world FetchFailed) s req v) as (H1 & H2 & H3 & _).
  - reflexivity.
  - reflexivity.
  - reflexivity.
  - vm_compute. reflexivity.
  - split; [exact H1 |]. split; [exact H2 | exact H3].
Defined.

(** ** Requests outside [/v1/] *)

Lemma or_else_None_Some (a : option string) (t : string) :
  or_else a None = Some t → a = Some t ∧ t ≠ "".
Proof.
  unfold or_else. destruct a as [x|]; [| discriminate].
  destruct (String.eqb x "") eqn:E; [discriminate |].
  intros [= ->]. split; [reflexivity |].
  intros ->. discriminate.
Qed.

Lemma admin_purge_frame P cfg s req :
  let sr := admin_purge P cfg s req in
  limiter (fst sr) = limiter s ∧
  C.st (cache (fst sr)) = C.st (cache s) ∧
  cnt (fst sr) = end_request (cnt s) ∧
  (cache (fst sr) = cache s ∨
   (headers req !! "x-admin-token" = Some (ADMIN_TOKEN cfg) ∧
    ADMIN_TOKEN cfg ≠ "")).
Proof.
  unfold admin_purge.
  destruct (or_else (headers req !! "x-admin-token") None) as [token|] eqn:Et.
  2: { cbn. repeat split; try reflexivity. left. reflexivity. }
  apply or_else_None_Some in Et as [Et Hne].
  destruct (String.eqb token (ADMIN_TOKEN cfg)) eqn:Ee; cbn [negb].
  2: { cbn. repeat split; try reflexivity. left. reflexivity. }
  apply String.eqb_eq in Ee. subst token.
  destruct (prop _ "key") as [[| b | q | k | items | fields]|];
    try (cbn; repeat split; try reflexivity; left; reflexivity).
  destruct (String.eqb k "*").
  - cbn. repeat split; try reflexivity. right. split; assumption.
  - destruct (C.del (cache s) k) as [c deleted] eqn:Ed. cbn.
    split; [reflexivity |].
    split; [pose proof (StoreFacts.stores_del (cache s) k) as H;
            rewrite Ed in H; exact H |].
    split; [reflexivity |]. right. split; assumption.
Qed.

Lemma handle_not_v1 P cfg w s req :
  String.prefix "/v1/" (path req) = false →
  let o := handle P cfg w s req in
  o_fetches o = [] ∧
  limiter (o_state o) = limiter s ∧
  C.st (cache (o_state o)) = C.st (cache s) ∧
  cnt (o_state o) = end_request (begin_request (cnt s)) ∧
  (cache (o_state o) = cache s ∨
   (path req = "/admin/cache/purge" ∧ method req = "POST" ∧
    headers req !! "x-admin-token" = Some (ADMIN_TOKEN cfg) ∧
    ADMIN_TOKEN cfg ≠ "")).
Proof.
  intros Hp. unfold handle.
  destruct (String.eqb (path req) "/healthz").
  { cbn. repeat split; try reflexivity. left. reflexivity. }
  destruct (String.eqb (path req) "/metrics").
  { cbn. repeat split; try reflexivity. left. reflexivity. }
  destruct (String.eqb (path req) "/admin/cache/purge") eqn:E3;
    [destruct (String.eqb (method req) "POST") eqn:E4 |]; cbn [andb].
  - apply String.eqb_eq in E3, E4.
    destruct (admin_purge_frame P cfg (with_cnt begin_request s) req)
      as (H1 & H2 & H3 & H4).
    cbn [o_state o_fetches fst]. split; [reflexivity |].
    split; [exact H1 |]. split; [exact H2 |]. split; [exact H3 |].
    destruct H4 as [H4 | [H4 H5]]; [left; exact H4 | right; done].
  - rewrite Hp. cbn. repeat split; try reflexivity. left. reflexivity.
  - rewrite Hp. cbn. repeat split; try reflexivity. left. reflexivity.
Qed.

(** A request whose path does not start with [/v1/] never reaches the
    proxy pipeline: it consumes no rate-limit token, calls no upstream,
    and leaves [in_flight] as it was; the cache can change only through
    [POST /admin/cache/purge] carrying the configured, non-empty admin
    token, and even then the cache's counters stay. *)
Theorem other_paths_stay_local (P : platform) (cfg : config) (w : world)
    (s : state) (req : request) :
  String.prefix "/v1/" (path req) = false →
  let o := handle P cfg w s req in
  o_fetches o = [] ∧
  limiter (o_state o) = limiter s ∧
  C.st (cache (o_state o)) = C.st (cache s) ∧
  in_flight (cnt (o_state o)) = in_flight (cnt s) ∧
  total_requests (cnt (o_state o)) = S (total_requests (cnt s)) ∧
  (cache (o_state o) ≠ cache s →
   path req = "/admin/cache/purge" ∧ method req = "POST" ∧
   headers req !! "x-admin-token" = Some (ADMIN_TOKEN cfg) ∧
   ADMIN_TOKEN cfg ≠ "").
Proof.
  intros Hp o. subst o.
  destruct (handle_not_v1 P cfg w s req Hp) as (H1 & H2 & H3 & H4 & H5).
  split; [exact H1 |]. split; [exact H2 |]. split; [exact H3 |].
  rewrite H4. cbn. split; [lia |]. split; [reflexivity |].
  intros Hne. destruct H5 as [H5 | H5]; [contradiction | exact H5].
Qed.

(** A purge request without the token. *)
Lemma other_paths_stay_local_witness :
  let req := {| method := "POST"; path := "/admin/cache/purge"; search := "";
                headers := ∅; rawBody := ""; remoteAddress := None |} in
  let o := handle (example_platform (λ _, None)) example_config
             (example_world FetchFailed) example_state req in
  o_fetches o = [] ∧ limiter (o_state o) = limiter example_state ∧
  r_status (o_response o) = 401.
Proof.
  intros req o.
  destruct (other_paths_stay_local (example_platform (λ _, None))
              example_config (example_world FetchFailed) example_state req)
    as (H1 & H2 & _).
  - reflexivity.
  - split; [exact H1 |]. split; [exact H2 | reflexivity].
Defined.

(** ** What is stored, and the in-flight gauge *)

Lemma stores_response_not_v1 P cfg w s req :
  String.prefix "/v1/" (path req) = false → stores_response P cfg w s req = false.
Proof. intros H. unfold stores_response. rewrite H. reflexivity. Qed.

(** The handler calls [cache.set] for a request exactly when the path
    starts with [/v1/], the limiter admits it, it does not bypass, the
    lookup misses, the upstream answers, the method is POST and, with
    [CACHE_ONLY_SUCCESS], the status is 2xx.  In that case the cache's
    [stores] and the [cache_stores] counter grow by one; for every other
    request both stay. *)
Theorem stores_exactly_cacheable (P : platform) (cfg : config) (w : world)
    (s : state) (req : request) :
  let o := handle P cfg w s req in
  let n := if stores_response P cfg w s req then 1%nat else 0%nat in
  C.stores (C.st (cache (o_state o))) = (C.stores (C.st (cache s)) + n)%nat ∧
  cache_stores (cnt (o_state o)) = (cache_stores (cnt s) + n)%nat ∧
  (stores_response P cfg w s req = true →
   method req = "POST" ∧ bypass P req = false ∧
   ∃ status hdrs payload,
     fetch w (upstream_request P cfg req) = FetchOk status hdrs payload ∧
     (CACHE_ONLY_SUCCESS cfg = true → 200 <= status < 300)).
Proof.
  intros o n. subst o n. split; [| split].
  - destruct (String.prefix "/v1/" (path req)) eqn:Hp.
    2: { rewrite (stores_response_not_v1 _ _ _ _ _ Hp).
         destruct (handle_not_v1 P cfg w s req Hp) as (_ & _ & -> & _). lia. }
    rewrite (handle_v1 P cfg w s req Hp). unfold stores_response. rewrite Hp.
    change (admitted P w s req) with (admitted P w (with_cnt begin_request s) req).
    change (cached P cfg w s req)
      with (cached P cfg w (with_cnt begin_request s) req).
    destruct (admitted P w (with_cnt begin_request s) req) eqn:Ha; cbn [andb].
    2: { rewrite (pipeline_rejected _ _ _ _ _ Ha). cbn. lia. }
    destruct (bypass P req) eqn:Hb; cbn [andb negb].
    { rewrite (pipeline_bypass _ _ _ _ _ Ha Hb), forward_cases.
      destruct (fetch w _) as [|status hdrs payload]; [cbn; lia |].
      rewrite (shouldCache_bypass P cfg req status Hb). cbn. lia. }
    rewrite (pipeline_lookup _ _ _ _ _ Ha Hb). cbv zeta.
    destruct (cached P cfg w (with_cnt begin_request s) req) as [v|] eqn:Hc.
    { cbn [o_state cache with_cnt with_cache with_limiter].
      change (cache (with_cnt begin_request s)) with (cache s).
      rewrite StoreFacts.stores_get. cbn [andb]. lia. }
    rewrite forward_cases.
    destruct (fetch w _) as [|status hdrs payload].
    { cbn [o_state cache with_cnt with_cache with_limiter].
      change (cache (with_cnt begin_request s)) with (cache s).
      rewrite StoreFacts.stores_get. cbn [andb]. lia. }
    cbn [o_state]. destruct (shouldCache P cfg req status).
    + cbn [cache with_cnt with_cache with_limiter].
      rewrite StoreFacts.stores_set.
      change (cache (with_cnt begin_request s)) with (cache s).
      rewrite StoreFacts.stores_get. cbn [andb]. lia.
    + cbn [cache with_cnt with_cache with_limiter].
      change (cache (with_cnt begin_request s)) with (cache s).
      rewrite StoreFacts.stores_get. cbn [andb]. lia.
  - destruct (String.prefix "/v1/" (path req)) eqn:Hp.
    2: { rewrite (stores_response_not_v1 _ _ _ _ _ Hp).
         destruct (handle_not_v1 P cfg w s req Hp) as (_ & _ & _ & -> & _).
         cbn. lia. }
    rewrite (handle_v1 P cfg w s req Hp). unfold stores_response. rewrite Hp.
    change (admitted P w s req) with (admitted P w (with_cnt begin_request s) req).
    change (cached P cfg w s req)
      with (cached P cfg w (with_cnt begin_request s) req).
    destruct (admitted P w (with_cnt begin_request s) req) eqn:Ha; cbn [andb].
    2: { rewrite (pipeline_rejected _ _ _ _ _ Ha). cbn. lia. }
    destruct (bypass P req) eqn:Hb; cbn [andb negb].
    { rewrite (pipeline_bypass _ _ _ _ _ Ha Hb), forward_cases.
      destruct (fetch w _) as [|status hdrs payload]; [cbn; lia |].
      rewrite (shouldCache_bypass P cfg req status Hb). cbn. lia. }
    rewrite (pipeline_lookup _ _ _ _ _ Ha Hb). cbv zeta.
    destruct (cached P cfg w (with_cnt begin_request s) req) as [v|] eqn:Hc;
      [cbn; lia |].
    rewrite forward_cases.
    destruct (fetch w _) as [|status hdrs payload]; [cbn; lia |].
    cbn [o_state]. destruct (shouldCache P cfg req status); cbn; lia.
  - unfold stores_response. intros H.
    repeat (apply andb_prop in H as [H ?]).
    destruct (fetch w (upstream_request P cfg req)) as [|status hdrs payload];
      [discriminate |].
    match goal with Hs : shouldCache _ _ _ _ = true |- _ =>
      unfold shouldCache in Hs; apply andb_prop in Hs as [Hs Hm];
      apply andb_prop in Hs as [Hnb Hok] end.
    apply String.eqb_eq in Hm. apply negb_true_iff in Hnb.
    split; [exact Hm |]. split; [exact Hnb |].
    exists status, hdrs, payload. split; [reflexivity |].
    intros Honly. rewrite Honly in Hok. cbn in Hok.
    apply andb_prop in Hok as [Hlo Hhi].
    apply bool_decide_eq_true in Hlo, Hhi. lia.
Qed.

(** [in_flight] is incremented when a request arrives and decremented on
    the health, metrics, purge and not-found answers, on a rate-limit
    rejection, on a cache hit and on an upstream failure; after a response
    relayed from the upstream it is not decremented, so each such request
    leaves the gauge one higher. *)
Theorem in_flight_leaks_on_upstream_success (P : platform) (cfg : config)
    (w : world) (s : state) (req : request) :
  let o := handle P cfg w s req in
  in_flight (cnt (o_state o)) =
  in_flight (cnt s) + (if answered_by_upstream w o then 1 else 0).
Proof.
  intros o. subst o.
  destruct (String.prefix "/v1/" (path req)) eqn:Hp.
  2: { destruct (handle_not_v1 P cfg w s req Hp) as (Hf & _ & _ & Hc & _).
       unfold answered_by_upstream. rewrite Hf, Hc. cbn. lia. }
  rewrite (handle_v1 P cfg w s req Hp). unfold answered_by_upstream.
  destruct (admitted P w (with_cnt begin_request s) req) eqn:Ha.
  2: { rewrite (pipeline_rejected _ _ _ _ _ Ha). cbn. lia. }
  destruct (bypass P req) eqn:Hb.
  { rewrite (pipeline_bypass _ _ _ _ _ Ha Hb), forward_cases.
    destruct (fetch w (upstream_request P cfg req)) as [|status hdrs payload] eqn:Ef.
    - cbn [o_state o_fetches]. rewrite Ef. cbn. lia.
    - cbn [o_state o_fetches]. rewrite Ef.
      rewrite (shouldCache_bypass P cfg req status Hb). cbn. lia. }
  rewrite (pipeline_lookup _ _ _ _ _ Ha Hb). cbv zeta.
  destruct (cached P cfg w (with_cnt begin_request s) req) as [v|];
    [cbn; lia |].
  rewrite forward_cases.
  destruct (fetch w (upstream_request P cfg req)) as [|status hdrs payload] eqn:Ef.
  - cbn [o_state o_fetches]. rewrite Ef. cbn. lia.
  - cbn [o_state o_fetches]. rewrite Ef.
    destruct (shouldCache P cfg req status); cbn; lia.
Qed.


End HandlerFacts.

(* ===================================================================== *)
(** * The request handler: repeats, purges, keys and upstream requests    *)
(* ===================================================================== *)

Module PipelineFacts.
Import Utils Server HandlerFacts.
Module C := TTLCache.
Module R := RateLimiter.

#[local] Arguments TTLCache.set : simpl never.
#[local] Arguments TTLCache.get : simpl never.
#[local] Arguments RateLimiter.tryRemoveToken : simpl never.
#[local] Arguments cacheKey : simpl never.
#[local] Arguments upstream_request : simpl never.
#[local] Arguments pickClientId : simpl never.
#[local] Arguments bypass : simpl never.
#[local] Arguments shouldCache : simpl never.
#[local] Arguments respHeaders : simpl never.
#[local] Arguments setHeaders : simpl never.
#[local] Arguments pretty : simpl never.

(** ** A repeated request *)

Lemma shouldCache_true P cfg req status :
  shouldCache P cfg req status = true → bypass P req = false.
Proof.
  unfold shouldCache. intros H.
  apply andb_prop in H as [H _]. apply andb_prop in H as [H _].
  apply negb_true_iff in H. exact H.
Qed.

(** The state after a miss whose response is stored. *)
Lemma miss_then_store P cfg w s req status hdrs payload :
  String.prefix "/v1/" (path req) = true → admitted P w s req = true →
  cached P cfg w s req = None →
  fetch w (upstream_request P cfg req) = FetchOk status hdrs payload →
  shouldCache P cfg req status = true →
  cache (o_state (handle P cfg w s req)) =
  C.set (fst (C.get (cache s) (t_get w) (cacheKey P cfg req))) (t_set w)
    (cacheKey P cfg req)
    (C.Value status
       (map_to_list
          (respHeaders hdrs (setHeader "x-cache" "miss" (rate_header P w s req))))
       payload) None.
Proof.
  intros Hp Ha Hc Hf Hs. rewrite (handle_v1 P cfg w s req Hp).
  change (admitted P w s req) with (admitted P w (with_cnt begin_request s) req) in Ha.
  change (cached P cfg w s req)
    with (cached P cfg w (with_cnt begin_request s) req) in Hc.
  rewrite (pipeline_lookup _ _ _ _ _ Ha (shouldCache_true _ _ _ _ Hs)).
  cbv zeta. rewrite Hc, forward_cases, Hf, Hs. reflexivity.
Qed.

(** A POST whose lookup missed and whose response was stored, repeated
    before the entry expires: the repeat is answered from the cache with
    the upstream's status, body and headers and without a call of
    [fetch], and is counted in [cache_hits].  Its [x-cache] header reads
    miss, not hit: the headers stored with the entry include the
    [x-cache: miss] of the first response, and they are set after, and so
    over, the [x-cache: hit] of the repeat. *)
Theorem repeat_is_served_from_cache (P : platform) (cfg : config)
    (w1 w2 : world) (s : state) (req : request)
    (status : Z) (hdrs : gmap string string) (payload : string) :
  String.prefix "/v1/" (path req) = true →
  LRU.wf (cache s) → 0 < C.maxEntries (cache s) →
  admitted P w1 s req = true → cached P cfg w1 s req = None →
  fetch w1 (upstream_request P cfg req) = FetchOk status hdrs payload →
  shouldCache P cfg req status = true →
  let s1 := o_state (handle P cfg w1 s req) in
  admitted P w2 s1 req = true →
  t_get w2 < t_set w1 + C.ttlMs (cache s) →
  let o2 := handle P cfg w2 s1 req in
  o_fetches o2 = [] ∧
  r_status (o_response o2) = status ∧
  r_body (o_response o2) = Raw payload ∧
  r_headers (o_response o2) !! "x-cache" = Some "miss" ∧
  (∀ k v, hdrs !! k = Some v →
     toLowerCase k ∉ ["transfer-encoding"; "connection"] → k ≠ "x-cache" →
     r_headers (o_response o2) !! k = Some v) ∧
  cache_hits (cnt (o_state o2)) = S (cache_hits (cnt s)).
Proof.
  intros Hp Hwf Hmax Ha1 Hc1 Hf Hs s1 Ha2 Ht o2.
  set (key := cacheKey P cfg req).
  set (rh := respHeaders hdrs (setHeader "x-cache" "miss" (rate_header P w1 s req))).
  set (v := C.Value status (map_to_list rh) payload).
  set (c1 := fst (C.get (cache s) (t_get w1) key)).
  assert (Hcache : cache s1 = C.set c1 (t_set w1) key v None)
    by (apply miss_then_store; assumption).
  assert (Hwf1 : LRU.wf c1) by (apply CacheFacts.get_wf, Hwf).
  destruct (CacheFacts.step_config (cache s) (LRU.OpGet (t_get w1) key) Hwf)
    as [Httl1 Hmax1]. cbn [LRU.step] in Httl1, Hmax1. fold c1 in Httl1, Hmax1.
  assert (Hentry : LRU.entries (cache s1) !! key
                   = Some (v, LRU.expiry_of (C.ttlMs (cache s)) (t_set w1) None)).
  { rewrite Hcache, <- Httl1. apply CacheFacts.set_entries_key;
      [exact Hwf1 | rewrite Hmax1; exact Hmax]. }
  assert (Hwfs1 : LRU.wf (cache s1))
    by (rewrite Hcache; apply CacheFacts.set_wf, Hwf1).
  assert (Hhit : cached P cfg w2 s1 req = Some v).
  { unfold cached. fold key. rewrite (CacheFacts.get_result _ _ _ Hwfs1), Hentry.
    unfold LRU.expiry_of. cbn [default].
    rewrite bool_decide_eq_false_2 by lia. reflexivity. }
  assert (Hcnt : cache_hits (cnt s1) = cache_hits (cnt s)).
  { unfold s1. rewrite (handle_v1 P cfg w1 s req Hp).
    rewrite (pipeline_lookup P cfg w1 (with_cnt begin_request s) req Ha1
               (shouldCache_true _ _ _ _ Hs)).
    cbv zeta.
    change (cached P cfg w1 (with_cnt begin_request s) req)
      with (cached P cfg w1 s req).
    rewrite Hc1, forward_cases, Hf, Hs. reflexivity. }
  subst o2. rewrite (handle_v1 P cfg w2 s1 req Hp).
  change (admitted P w2 s1 req)
    with (admitted P w2 (with_cnt begin_request s1) req) in Ha2.
  change (cached P cfg w2 s1 req)
    with (cached P cfg w2 (with_cnt begin_request s1) req) in Hhit.
  rewrite (pipeline_lookup _ _ _ _ _ Ha2 (shouldCache_true _ _ _ _ Hs)).
  cbv zeta. rewrite Hhit.
  cbn [o_state o_response o_fetches cnt with_cnt with_cache with_limiter
       r_status r_body r_headers cache_hits incr_cache_hits end_request
       begin_request C.status C.body C.headers v].
  split; [reflexivity |]. split; [reflexivity |]. split; [reflexivity |].
  rewrite setHeaders_map_to_list.
  assert (Hx : rh !! "x-cache" = Some "miss").
  { apply respHeaders_x_cache; [apply lookup_insert_eq | discriminate]. }
  split; [rewrite lookup_union, Hx; apply (union_Some_l "miss") |].
  split; [| rewrite Hcnt; reflexivity].
  intros k x Hk Hhop Hne. rewrite lookup_union.
  assert (Hrh : rh !! k = Some x).
  { unfold rh, respHeaders. rewrite lookup_insert_ne by congruence.
    apply map_lookup_filter_Some_2; [exact Hk | exact Hhop]. }
  rewrite Hrh. apply (union_Some_l x).
Qed.

Lemma repeat_is_served_from_cache_witness :
  let P := example_platform (λ _, None) in
  let w := example_world (FetchOk 200 {[ "content-type" := "text/plain" ]} "pong") in
  let req := example_request "POST" ∅ in
  let s1 := o_state (handle P example_config w example_state req) in
  let o2 := handle P example_config w s1 req in
  o_fetches o2 = [] ∧ r_status (o_response o2) = 200 ∧
  r_body (o_response o2) = Raw "pong" ∧
  r_headers (o_response o2) !! "x-cache" = Some "miss" ∧
  r_headers (o_response o2) !! "content-type" = Some "text/plain".
Proof.
  intros P w req s1 o2.
  destruct (repeat_is_served_from_cache P example_config w w example_state req
              200 {[ "content-type" := "text/plain" ]} "pong")
    as (H1 & H2 & H3 & H4 & H5 & _).
  - reflexivity.
  - apply CacheFacts.new_wf.
  - reflexivity.
  - reflexivity.
  - reflexivity.
  - reflexivity.
  - reflexivity.
  - vm_compute. reflexivity.
  - reflexivity.
  - split; [exact H1 |]. split; [exact H2 |]. split; [exact H3 |].
    split; [exact H4 |].
    apply (H5 "content-type" "text/plain").
    + apply lookup_singleton_eq.
    + cbn. rewrite !elem_of_cons, elem_of_nil.
      intros [H | [H | []]]; discriminate.
    + discriminate.
Defined.

(** ** Administrative purge *)

Lemma handle_admin P cfg w s req :
  path req = "/admin/cache/purge" → method req = "POST" →
  handle P cfg w s req =
  {| o_state := fst (admin_purge P cfg (with_cnt begin_request s) req);
     o_response := snd (admin_purge P cfg (with_cnt begin_request s) req);
     o_fetches := [] |}.
Proof. intros Hp Hm. unfold handle. rewrite Hp, Hm. reflexivity. Qed.

(** [POST /admin/cache/purge] without the [x-admin-token] header, with an
    empty one or with one that differs from [ADMIN_TOKEN] is answered 401
    and changes neither the cache nor the limiter. *)
Theorem purge_requires_token (P : platform) (cfg : config) (w : world)
    (s : state) (req : request) :
  path req = "/admin/cache/purge" → method req = "POST" →
  headers req !! "x-admin-token" ≠ Some (ADMIN_TOKEN cfg) ∨
  headers req !! "x-admin-token" = Some "" →
  let o := handle P cfg w s req in
  r_status (o_response o) = 401 ∧ cache (o_state o) = cache s ∧
  limiter (o_state o) = limiter s.
Proof.
  intros Hp Hm Htok o. subst o. rewrite (handle_admin P cfg w s req Hp Hm).
  unfold admin_purge. cbn [headers].
  destruct (or_else (headers req !! "x-admin-token") None) as [token|] eqn:Et.
  - apply or_else_None_Some in Et as [Et Hne].
    destruct (String.eqb token (ADMIN_TOKEN cfg)) eqn:Ee; cbn [negb].
    + apply String.eqb_eq in Ee. subst token.
      destruct Htok as [Htok | Htok]; [contradiction | congruence].
    + cbn. repeat split.
  - cbn. repeat split.
Qed.

Lemma purge_requires_token_witness :
  let req := {| method := "POST"; path := "/admin/cache/purge"; search := "";
                headers := {[ "x-admin-token" := "guess" ]}; rawBody := "";
                remoteAddress := None |} in
  let o := handle (example_platform (λ _, None)) example_config
             (example_world FetchFailed) example_state req in
  r_status (o_response o) = 401 ∧ cache (o_state o) = cache example_state ∧
  limiter (o_state o) = limiter example_state.
Proof.
  apply (purge_requires_token (example_platform (λ _, None)) example_config
           (example_world FetchFailed) example_state).
  - reflexivity.
  - reflexivity.
  - left. cbn [headers]. rewrite lookup_singleton_eq. discriminate.
Defined.

(** [POST /admin/cache/purge] with the configured, non-empty token and a
    JSON object body whose [key] is a string is answered 200: for the key
    [*] the cache is cleared; for any other key the entry stored under it,
    if any, is removed, every other entry stays, and [deleted] tells
    whether an entry was stored. *)
Theorem purge_clears_or_deletes (P : platform) (cfg : config) (w : world)
    (s : state) (req : request) (fields : list (string * json)) (k : string) :
  path req = "/admin/cache/purge" → method req = "POST" →
  headers req !! "x-admin-token" = Some (ADMIN_TOKEN cfg) →
  ADMIN_TOKEN cfg ≠ "" →
  JSON_parse P (rawBody req) = Some (JObject fields) →
  field fields "key" = Some (JString k) →
  LRU.wf (cache s) →
  let o := handle P cfg w s req in
  r_status (o_response o) = 200 ∧
  if String.eqb k "*" then
    C.map (cache (o_state o)) = ∅ ∧
    r_body (o_response o) =
      Json (JObject [("ok", JBool true); ("cleared", JBool true)])
  else
    LRU.entries (cache (o_state o)) = delete k (LRU.entries (cache s)) ∧
    LRU.wf (cache (o_state o)) ∧
    r_body (o_response o) =
      Json (JObject [("ok", JBool true);
                     ("deleted",
                      JBool (bool_decide (is_Some (LRU.entries (cache s) !! k))))]).
Proof.
  intros Hp Hm Htok Hne Hparse Hkey Hwf o. subst o.
  rewrite (handle_admin P cfg w s req Hp Hm).
  unfold admin_purge. rewrite Htok.
  assert (Hor : or_else (Some (ADMIN_TOKEN cfg)) None = Some (ADMIN_TOKEN cfg)).
  { unfold or_else. destruct (String.eqb (ADMIN_TOKEN cfg) "") eqn:E;
      [apply String.eqb_eq in E; contradiction | reflexivity]. }
  rewrite Hor, String.eqb_refl. cbn [negb].
  unfold safeJsonParse. rewrite Hparse. cbn [truthy prop]. rewrite Hkey.
  destruct (String.eqb k "*").
  - cbn. repeat split.
  - destruct (StoreFacts.del_spec (cache s) k Hwf) as (Hd & He & _ & _ & Hw).
    change (cache (with_cnt begin_request s)) with (cache s).
    destruct (C.del (cache s) k) as [c deleted] eqn:Ed.
    cbn [fst snd] in Hd, He, Hw. cbn.
    split; [reflexivity |]. split; [exact He |]. split; [exact Hw |].
    rewrite Hd. reflexivity.
Qed.

Lemma purge_clears_or_deletes_witness :
  let P := example_platform (λ _, Some (JObject [("key", JString "*")])) in
  let s := with_cache (C.set (C.new 60000 500) 0 "k" (C.Value 200 [] "v") None)
             example_state in
  let req := {| method := "POST"; path := "/admin/cache/purge"; search := "";
                headers := {[ "x-admin-token" := "changeme" ]};
                rawBody := "body"; remoteAddress := None |} in
  let o := handle P example_config (example_world FetchFailed) s req in
  r_status (o_response o) = 200 ∧ C.map (cache (o_state o)) = ∅.
Proof.
  intros P s req o.
  destruct (purge_clears_or_deletes P example_config (example_world FetchFailed)
              s req [("key", JString "*")] "*") as (H1 & H2 & _).
  - reflexivity.
  - reflexivity.
  - reflexivity.
  - discriminate.
  - reflexivity.
  - reflexivity.
  - apply CacheFacts.set_wf, CacheFacts.new_wf.
  - split; [exact H1 | exact H2].
Defined.

(** ** The cache key *)

Lemma append_inj_l (p a b : string) : p +:+ a = p +:+ b → a = b.
Proof.
  induction p as [|c p IH]; cbn; [tauto |]. intros [= H]. apply IH, H.
Qed.

(** The effective credential of a request: its [authorization] header,
    or, when that is absent or empty, the configured upstream key. *)
Lemma authHash_effective P cfg req1 req2 :
  (if String.eqb (authHeader req1) "" then UPSTREAM_API_KEY cfg
   else authHeader req1) =
  (if String.eqb (authHeader req2) "" then UPSTREAM_API_KEY cfg
   else authHeader req2) →
  authHash P cfg req1 = authHash P cfg req2.
Proof.
  unfold authHash.
  destruct (String.eqb (authHeader req1) "") eqn:E1;
    destruct (String.eqb (authHeader req2) "") eqn:E2; cbn [negb].
  - reflexivity.
  - intros ->. rewrite E2. reflexivity.
  - intros <-. rewrite E1. reflexivity.
  - intros ->. reflexivity.
Qed.

(** Two requests derive the same cache key when they agree on method,
    path, query and effective credential (the [authorization] header, or
    the configured upstream key when there is none) and, unless the method
    is GET, on the body.  So the body of a GET, every other header and the
    peer address play no part, and a request without credentials shares
    its key with one that presents the configured upstream key. *)
Theorem cacheKey_ignores (P : platform) (cfg : config) (req1 req2 : request) :
  method req1 = method req2 → path req1 = path req2 →
  search req1 = search req2 →
  (if String.eqb (authHeader req1) "" then UPSTREAM_API_KEY cfg
   else authHeader req1) =
  (if String.eqb (authHeader req2) "" then UPSTREAM_API_KEY cfg
   else authHeader req2) →
  method req1 = "GET" ∨ rawBody req1 = rawBody req2 →
  cacheKey P cfg req1 = cacheKey P cfg req2.
Proof.
  intros Hm Hp Hs Ha Hb. unfold cacheKey, bodyKey.
  rewrite (authHash_effective P cfg req1 req2 Ha), <- Hm, <- Hp, <- Hs.
  destruct Hb as [Hg | Hb].
  - rewrite Hg. reflexivity.
  - rewrite Hb. reflexivity.
Qed.

Lemma cacheKey_ignores_witness :
  let cfg := {| UPSTREAM_API_KEY := "sk-upstream";
                UPSTREAM_AUTH_HEADER_NAME := "Authorization";
                CACHE_ONLY_SUCCESS := true; ADMIN_TOKEN := "changeme" |} in
  cacheKey (example_platform (λ _, None)) cfg (example_request "POST" ∅) =
  cacheKey (example_platform (λ _, None)) cfg
    (example_request "POST" {[ "authorization" := "sk-upstream";
                               "user-agent" := "curl" ]}).
Proof.
  intros cfg.
  apply (cacheKey_ignores (example_platform (λ _, None)) cfg).
  - reflexivity.
  - reflexivity.
  - reflexivity.
  - reflexivity.
  - right. reflexivity.
Defined.

(** For a method other than GET, two requests that differ only in their
    bodies derive different cache keys whenever the SHA-256 digests of the
    bodies differ. *)
Theorem cacheKey_separates_bodies (P : platform) (cfg : config)
    (req1 req2 : request) :
  method req1 = method req2 → method req1 ≠ "GET" →
  path req1 = path req2 → search req1 = search req2 →
  authHeader req1 = authHeader req2 →
  sha256_hex P (rawBody req1) ≠ sha256_hex P (rawBody req2) →
  cacheKey P cfg req1 ≠ cacheKey P cfg req2.
Proof.
  intros Hm Hg Hp Hs Ha Hh Hkey. apply Hh.
  unfold cacheKey, bodyKey, authHash, hashBody in Hkey.
  rewrite <- Hm, <- Hp, <- Hs, <- Ha in Hkey.
  assert (Hn : String.eqb (method req1) "GET" = false).
  { destruct (String.eqb (method req1) "GET") eqn:E; [| reflexivity].
    apply String.eqb_eq in E. contradiction. }
  rewrite Hn in Hkey.
  repeat (apply append_inj_l in Hkey). exact Hkey.
Qed.

Lemma cacheKey_separates_bodies_witness :
  let P := example_platform (λ _, None) in
  let req1 := example_request "POST" ∅ in
  let req2 := {| method := "POST"; path := "/v1/chat/completions"; search := "";
                 headers := ∅; rawBody := "{ }";
                 remoteAddress := Some "10.0.0.1" |} in
  cacheKey P example_config req1 ≠ cacheKey P example_config req2.
Proof.
  intros P req1 req2.
  apply (cacheKey_separates_bodies P example_config req1 req2);
    try reflexivity; discriminate.
Defined.

(** ** The upstream request *)

Lemma copied_lookup (hs : gmap string string) (k : string) :
  filter (λ kv : string * string,
            snd kv ≠ "" ∧
            toLowerCase (fst kv) ∉
              ["connection"; "content-length"; "host"; "authorization"]) hs
    !! k =
  if decide (toLowerCase k ∈
               ["connection"; "content-length"; "host"; "authorization"])
  then None
  else match hs !! k with
       | Some v => if String.eqb v "" then None else Some v
       | None => None
       end.
Proof.
  destruct (decide _) as [Hin | Hout].
  - apply map_lookup_filter_None. right. intros v _ [_ Hn]. apply Hn, Hin.
  - destruct (hs !! k) as [v|] eqn:Ek.
    + destruct (String.eqb v "") eqn:Ev.
      * apply String.eqb_eq in Ev. subst v.
        apply map_lookup_filter_None. right. intros v Hv [Hn _].
        rewrite Ek in Hv. injection Hv as <-. apply Hn. reflexivity.
      * apply map_lookup_filter_Some. split; [exact Ek |]. split; [| exact Hout].
        cbn. intros ->. discriminate.
    + apply map_lookup_filter_None. left. exact Ek.
Qed.

(** With the upstream credential sent in the [Authorization] header (the
    default), the request sent upstream never carries the inbound
    [connection], [content-length] or [host] header; its [authorization]
    header is [Bearer] and the trimmed configured key when one is
    configured, whatever the client sent, and the client's own credential
    only when none is configured; every other header with a non-empty
    value is passed on unchanged; a GET or HEAD is sent without a body,
    any other method with the body received. *)
Theorem upstream_request_headers (P : platform) (cfg : config) (req : request) :
  toLowerCase (UPSTREAM_AUTH_HEADER_NAME cfg) = "authorization" →
  let fr := upstream_request P cfg req in
  (∀ k, k ∈ ["connection"; "content-length"; "host"] →
        f_headers fr !! k = None) ∧
  f_headers fr !! "authorization" =
    (if negb (String.eqb (UPSTREAM_API_KEY cfg) "")
        && negb (String.eqb (trim P (UPSTREAM_API_KEY cfg)) "")
     then Some ("Bearer " +:+ trim P (UPSTREAM_API_KEY cfg))
     else if String.eqb (authHeader req) "" then None
          else Some (authHeader req)) ∧
  (∀ k, toLowerCase k ∉
          ["connection"; "content-length"; "host"; "authorization"] →
        f_headers fr !! k =
        match headers req !! k with
        | Some v => if String.eqb v "" then None else Some v
        | None => None
        end) ∧
  (f_body fr = None ↔ method req = "GET" ∨ method req = "HEAD") ∧
  (f_body fr ≠ None → f_body fr = Some (rawBody req)).
Proof.
  intros Hname fr. subst fr. unfold upstream_request. cbn [f_headers f_body].
  assert (Hcopied : ∀ k, toLowerCase k ∈
            ["connection"; "content-length"; "host"; "authorization"] →
            filter (λ kv : string * string,
              snd kv ≠ "" ∧
              toLowerCase (fst kv) ∉
                ["connection"; "content-length"; "host"; "authorization"])
              (headers req) !! k = None).
  { intros k Hk. rewrite copied_lookup. destruct (decide _); [reflexivity |].
    contradiction. }
  assert (Hother : ∀ k, toLowerCase k ∉
            ["connection"; "content-length"; "host"; "authorization"] →
            filter (λ kv : string * string,
              snd kv ≠ "" ∧
              toLowerCase (fst kv) ∉
                ["connection"; "content-length"; "host"; "authorization"])
              (headers req) !! k =
            match headers req !! k with
            | Some v => if String.eqb v "" then None else Some v
            | None => None
            end).
  { intros k Hk. rewrite copied_lookup. destruct (decide _); [| reflexivity].
    contradiction. }
  split; [| split; [| split; [| split]]].
  - intros k Hk.
    assert (Hin : toLowerCase k ∈
              ["connection"; "content-length"; "host"; "authorization"]
            ∧ "authorization" ≠ k).
    { apply elem_of_cons in Hk as [Hk | Hk];
        [| apply elem_of_cons in Hk as [Hk | Hk];
           [| apply elem_of_cons in Hk as [Hk | Hk];
              [| apply elem_of_nil in Hk; contradiction]]];
        subst k; (split; [| discriminate]); cbn;
        repeat first [apply list_elem_of_here | apply list_elem_of_further]. }
    destruct Hin as [Hin Hne].
    unfold upstream_headers. rewrite Hname.
    destruct (negb _ && negb _); [| destruct (negb _)];
      rewrite ?(lookup_insert_ne _ _ _ _ Hne); apply Hcopied, Hin.
  - unfold upstream_headers. rewrite Hname.
    destruct (negb _ && negb _).
    + apply lookup_insert_eq.
    + destruct (String.eqb (authHeader req) ""); cbn [negb].
      * apply Hcopied. cbn.
        repeat first [apply list_elem_of_here | apply list_elem_of_further].
      * apply lookup_insert_eq.
  - intros k Hk.
    assert (Hne : "authorization" ≠ k).
    { intros <-. apply Hk. cbn.
      repeat first [apply list_elem_of_here | apply list_elem_of_further]. }
    unfold upstream_headers. rewrite Hname.
    destruct (negb _ && negb _); [| destruct (negb _)];
      rewrite ?(lookup_insert_ne _ _ _ _ Hne); apply Hother, Hk.
  - destruct (bool_decide _) eqn:Eb.
    + apply bool_decide_eq_true in Eb. split; [intros _ | reflexivity].
      apply elem_of_cons in Eb as [-> | Eb]; [left; reflexivity |].
      apply elem_of_cons in Eb as [-> | Eb]; [right; reflexivity |].
      apply elem_of_nil in Eb. contradiction.
    + apply bool_decide_eq_false in Eb. split; [discriminate |].
      intros [Hm | Hm]; exfalso; apply Eb; rewrite Hm;
        repeat first [apply list_elem_of_here | apply list_elem_of_further].
  - destruct (bool_decide _); [intros H; contradiction | reflexivity].
Qed.

Lemma upstream_request_headers_witness :
  let cfg := {| UPSTREAM_API_KEY := " sk-upstream ";
                UPSTREAM_AUTH_HEADER_NAME := "Authorization";
                CACHE_ONLY_SUCCESS := true; ADMIN_TOKEN := "changeme" |} in
  let req := example_request "POST" {[ "authorization" := "Bearer client";
                                       "host" := "proxy.local" ]} in
  f_headers (upstream_request (example_platform (λ _, None)) cfg req)
    !! "authorization" = Some "Bearer sk-upstream".
Proof.
  intros cfg req.
  destruct (upstream_request_headers (example_platform (λ _, None)) cfg req)
    as (_ & H & _).
  - reflexivity.
  - exact H.
Defined.

(** ** Client identity *)

(** A request with a non-empty [authorization] header is identified by
    that header alone: the same credential gives the same client id from
    any address and with any [x-forwarded-for].  A request without one is
    identified by the first entry of [x-forwarded-for], trimmed, when that
    is not empty, whatever the peer address; else by the peer address;
    else as [unknown].  The two kinds of id never coincide. *)
Theorem client_id_classes (P : platform) (h1 h2 : gmap string string)
    (r1 r2 : option string) (a : string) :
  h1 !! "authorization" = Some a → a ≠ "" →
  or_else (h2 !! "authorization") None = None →
  (∀ h r, h !! "authorization" = Some a →
          pickClientId P h r = pickClientId P h1 r1) ∧
  pickClientId P h1 r1 ≠ pickClientId P h2 r2 ∧
  (∀ xff, h2 !! "x-forwarded-for" = Some xff →
          trim P (before_comma xff) ≠ "" →
          pickClientId P h2 r2 = "ip:" +:+ trim P (before_comma xff)) ∧
  (h2 !! "x-forwarded-for" = None →
   pickClientId P h2 r2 =
   "ip:" +:+ match r2 with
             | Some ip => if String.eqb ip "" then "unknown" else ip
             | None => "unknown"
             end).
Proof.
  intros Ha Hne Hnone.
  assert (Hor : or_else (Some a) None = Some a).
  { unfold or_else. destruct (String.eqb a "") eqn:E; [| reflexivity].
    apply String.eqb_eq in E. contradiction. }
  assert (H1 : ∀ h r, h !! "authorization" = Some a →
            pickClientId P h r
            = "key:" +:+ String.substring 0 16 (sha256_hex P a)).
  { intros h r Hh. unfold pickClientId. rewrite Hh, Hor. reflexivity. }
  split; [| split; [| split]].
  - intros h r Hh. rewrite (H1 h r Hh), (H1 h1 r1 Ha). reflexivity.
  - rewrite (H1 h1 r1 Ha). unfold pickClientId. rewrite Hnone.
    destruct (or_else _ (Some "unknown")); cbn; discriminate.
  - intros xff Hx Ht. unfold pickClientId. rewrite Hnone, Hx.
    assert (E : String.eqb (trim P (before_comma xff)) "" = false).
    { destruct (String.eqb _ "") eqn:E; [| reflexivity].
      apply String.eqb_eq in E. contradiction. }
    unfold or_else at 2. rewrite E. unfold or_else. rewrite E. reflexivity.
  - intros Hx. unfold pickClientId. rewrite Hnone, Hx.
    destruct r2 as [ip|]; cbn; [| reflexivity].
    destruct (String.eqb ip "") eqn:E; cbn; reflexivity.
Qed.

Lemma client_id_classes_witness :
  pickClientId (example_platform (λ _, None))
    {[ "authorization" := "Bearer a" ]} (Some "10.0.0.1")
  ≠ pickClientId (example_platform (λ _, None))
      {[ "x-forwarded-for" := "key:73686132353628 , 10.0.0.2" ]}
      (Some "10.0.0.1").
Proof.
  apply (client_id_classes (example_platform (λ _, None))
           {[ "authorization" := "Bearer a" ]}
           {[ "x-forwarded-for" := "key:73686132353628 , 10.0.0.2" ]}
           (Some "10.0.0.1") (Some "10.0.0.1") "Bearer a").
  - reflexivity.
  - discriminate.
  - reflexivity.
Defined.

End PipelineFacts.

